(** * Shallow embedding of the ABI type codec and method signatures of
    algonaut_abi ([abi_type.rs], [interactions.rs]).

    A Rust [&str]/[String] is modelled by a Rocq [string], i.e. its UTF-8
    bytes; [str::len] is the byte length, [s[a..b]] is a byte slice that
    panics off a character boundary, and [str::chars] decodes UTF-8.
    A computation that may fail or panic returns an [outcome]: [Ok], a
    returned [Err] of [AbiError], or [Panic] (an [unwrap], [expect], index
    out of bounds or a bad slice). *)

From Stdlib Require Import String Ascii ZArith List Bool Lia.
From Stdlib Require Import Numbers.DecimalString.
Import ListNotations.
Set Warnings "-register-all".


Open Scope string_scope.
Open Scope Z_scope.

(** ** Results and errors *)

(** [crate::error::AbiError]: only the [Msg] variant is produced here. *)
Inductive AbiError : Type :=
| Msg (m : string).

Inductive outcome (A : Type) : Type :=
| Ok (a : A)
| Err (e : AbiError)
| Panic.

Arguments Ok {A} a.
Arguments Err {A} e.
Arguments Panic {A}.

(** The [?] operator; a panic propagates like an error. *)
Definition bind {A B : Type} (m : outcome A) (k : A -> outcome B) : outcome B :=
  match m with
  | Ok a => k a
  | Err e => Err e
  | Panic => Panic
  end.

Notation "x <- m ;; k" := (bind m (fun x => k))
  (at level 61, m at next level, right associativity).

(** ** Rust string primitives over UTF-8 bytes *)

Definition byte_of (a : ascii) : Z := Z.of_nat (nat_of_ascii a).

(** [str::len]: the number of bytes. *)
Definition len (s : string) : nat := String.length s.

(** [str::is_char_boundary]. *)
Definition is_char_boundary (s : string) (i : nat) : bool :=
  (i =? 0)%nat ||
  match String.get i s with
  | None => (i =? len s)%nat
  | Some c => (byte_of c <? 128) || (192 <=? byte_of c)
  end.

(** [&s[a..b]]: panics when [a > b], [b > len s] or an end is not on a
    character boundary. *)
Definition slice (s : string) (a b : nat) : outcome string :=
  if (a <=? b)%nat && (b <=? len s)%nat && is_char_boundary s a && is_char_boundary s b
  then Ok (substring a (b - a) s)
  else Panic.

(** [str::starts_with] / [str::strip_prefix]. *)
Definition starts_with (p s : string) : bool := String.prefix p s.

Definition strip_prefix (p s : string) : option string :=
  if starts_with p s then Some (substring (len p) (len s - len p) s) else None.

(** [str::ends_with] / [str::strip_suffix]. *)
Definition ends_with (p s : string) : bool :=
  (len p <=? len s)%nat && String.eqb (substring (len s - len p) (len p) s) p.

Definition strip_suffix (p s : string) : option string :=
  if ends_with p s then Some (substring 0 (len s - len p) s) else None.

(** [str::contains] with a string pattern. *)
Definition contains (p s : string) : bool :=
  match String.index 0 p s with Some _ => true | None => false end.

(** [str::chars]: UTF-8 decoding into Unicode scalar values.  A [&str] is
    always valid UTF-8; the fallbacks for truncated sequences are never
    taken on such input. *)
Fixpoint chars (s : string) : list Z :=
  match s with
  | EmptyString => []
  | String a r =>
      let b := byte_of a in
      if b <? 128 then b :: chars r
      else if b <? 224 then
        match r with
        | String a1 r1 => (Z.land b 31 * 64 + Z.land (byte_of a1) 63) :: chars r1
        | EmptyString => [b]
        end
      else if b <? 240 then
        match r with
        | String a1 (String a2 r2) =>
            (Z.land b 15 * 4096 + Z.land (byte_of a1) 63 * 64
             + Z.land (byte_of a2) 63) :: chars r2
        | _ => [b]
        end
      else
        match r with
        | String a1 (String a2 (String a3 r3)) =>
            (Z.land b 7 * 262144 + Z.land (byte_of a1) 63 * 4096
             + Z.land (byte_of a2) 63 * 64 + Z.land (byte_of a3) 63) :: chars r3
        | _ => [b]
        end
  end.

(** [char::encode_utf8], used to hand a capture group (a run of characters)
    back as a string. *)
Definition encode_char (c : Z) : string :=
  let byte z := String (ascii_of_nat (Z.to_nat z)) EmptyString in
  if c <? 128 then byte c
  else if c <? 2048 then
    byte (192 + Z.shiftr c 6) ++ byte (128 + Z.land c 63)
  else if c <? 65536 then
    byte (224 + Z.shiftr c 12) ++ byte (128 + Z.land (Z.shiftr c 6) 63)
    ++ byte (128 + Z.land c 63)
  else
    byte (240 + Z.shiftr c 18) ++ byte (128 + Z.land (Z.shiftr c 12) 63)
    ++ byte (128 + Z.land (Z.shiftr c 6) 63) ++ byte (128 + Z.land c 63).

Definition encode (cs : list Z) : string :=
  fold_right (fun c acc => encode_char c ++ acc) EmptyString cs.

(** [str::split(',')]: always at least one piece; the empty text gives one
    empty piece. *)
Fixpoint split_comma (s : string) : list string :=
  match s with
  | EmptyString => [EmptyString]
  | String a r =>
      if Ascii.eqb a "," then EmptyString :: split_comma r
      else match split_comma r with
           | [] => [String a EmptyString]
           | x :: xs => String a x :: xs
           end
  end.

(** [format!("{}", n)] for an unsigned integer. *)
Definition fmt_uint (n : Z) : string := NilEmpty.string_of_uint (N.to_uint (Z.to_N n)).

(** [<iN as FromStr>::from_str] / [<uN as FromStr>::from_str] (radix 10):
    an optional [+] (or [-] for a signed type), then one or more ASCII
    digits, the value in [lo, hi].  The library's checked accumulation
    overflows exactly when the final value leaves the range, as the
    magnitude only grows digit by digit. *)
Definition digit_val (a : ascii) : option Z :=
  let b := byte_of a in
  if (48 <=? b) && (b <=? 57) then Some (b - 48) else None.

Fixpoint digits_value (s : string) (acc : Z) : option Z :=
  match s with
  | EmptyString => Some acc
  | String a r =>
      match digit_val a with
      | Some d => digits_value r (acc * 10 + d)
      | None => None
      end
  end.

Definition in_range (lo hi v : Z) : option Z :=
  if (lo <=? v) && (v <=? hi) then Some v else None.

Definition parse_int (signed : bool) (lo hi : Z) (s : string) : option Z :=
  match s with
  | EmptyString => None
  | String a r =>
      if (Ascii.eqb a "+" || Ascii.eqb a "-") && String.eqb r EmptyString then None
      else if Ascii.eqb a "+" then
        match digits_value r 0 with Some v => in_range lo hi v | None => None end
      else if signed && Ascii.eqb a "-" then
        match digits_value r 0 with Some v => in_range lo hi (- v) | None => None end
      else
        match digits_value s 0 with Some v => in_range lo hi v | None => None end
  end.

Definition parse_i32 := parse_int true (- 2 ^ 31) (2 ^ 31 - 1).
Definition parse_u32 := parse_int false 0 (2 ^ 32 - 1).
Definition parse_usize := parse_int false 0 (2 ^ 64 - 1).

(** ** The two regular expressions of [AbiType::from_str]

    [\d] of the [regex] crate is the Unicode class Nd.  It is given by the
    first code point ("zero") of each run of ten decimal digits, plus the
    mathematical digits U+1D7CE..U+1D7FF. *)
Definition nd_zeros : list Z :=
  [48; 1632; 1776; 1984; 2406; 2534; 2662; 2790; 2918; 3046; 3174; 3302; 3430;
   3558; 3664; 3792; 3872; 4160; 4240; 6112; 6160; 6470; 6608; 6784; 6800;
   6992; 7088; 7232; 7248; 42528; 43216; 43264; 43472; 43504; 43600; 44016;
   65296; 66720; 68912; 69734; 69872; 69942; 70096; 70384; 70736; 70864;
   71248; 71360; 71472; 71904; 72016; 72784; 73040; 73120; 73552; 92768;
   92864; 93008; 123200; 123632; 124144; 125264; 130032].

Definition is_digit (c : Z) : bool :=
  existsb (fun z => (z <=? c) && (c <? z + 10)) nd_zeros
  || ((120782 <=? c) && (c <=? 120831)).

(** [[1-9]]. *)
Definition is_nonzero_ascii_digit (c : Z) : bool := (49 <=? c) && (c <=? 57).

(** [RE.captures(s)] for the static-array regex [^\d{4}-\d{2}-\d{2}$]: the
    regex has no group, so a match has the single capture [0]. *)
Definition date_re_captures (s : string) : option (list string) :=
  match chars s with
  | [d1; d2; d3; d4; h1; d5; d6; h2; d7; d8] =>
      if forallb is_digit [d1; d2; d3; d4; d5; d6; d7; d8] && (h1 =? 45) && (h2 =? 45)
      then Some [s] else None
  | _ => None
  end.

Fixpoint take_while (p : Z -> bool) (l : list Z) : list Z * list Z :=
  match l with
  | [] => ([], [])
  | c :: r => if p c then let '(a, b) := take_while p r in (c :: a, b) else ([], l)
  end.

(** [RE.captures(s)] for the ufixed regex [^ufixed([1-9][\d]+)x([1-9][\d]+)$]
    (with the stars of the source in place of the two plus signs): the letter
    [x] is no digit, so the first group is the whole run of digits after
    [ufixed] and the second group the rest of the text. *)
Definition ufixed_re_captures (s : string) : option (list string) :=
  match chars s with
  | 117 :: 102 :: 105 :: 120 :: 101 :: 100 :: rest =>
      match take_while is_digit rest with
      | (c1 :: g1, 120 :: c2 :: g2) =>
          if is_nonzero_ascii_digit c1 && is_nonzero_ascii_digit c2
             && forallb is_digit g2
          then Some [s; encode (c1 :: g1); encode (c2 :: g2)] else None
      | _ => None
      end
  | _ => None
  end.

(** ** [AbiType] (abi_type.rs) *)

(** The [BaseType] indices. *)
Definition UINT : Z := 0.
Definition BYTE : Z := 1.
Definition UFIXED : Z := 2.
Definition BOOL : Z := 3.
Definition ARRAY_STATIC : Z := 4.
Definition ADDRESS : Z := 5.
Definition ARRAY_DYNAMIC : Z := 6.
Definition STRING : Z := 7.
Definition TUPLE : Z := 8.

(** [struct AbiType]: [bit_size], [precision] and [static_length] are
    [Option<u16>], kept as [option Z]. *)
Inductive AbiType : Type := mkAbiType {
  abi_type_id : Z;
  child_types : list AbiType;
  bit_size : option Z;
  precision : option Z;
  static_length : option Z
}.

(** [AbiType::string]: the match arms are tried in order; the base type
    index selects at most one arm, and a failed pattern or guard falls
    through to the error arm (whose message is a plain literal, not a
    [format!]). *)
Definition not_serializable {A} : outcome A :=
  Err (Msg "Invalid state: not serializable abi type state: {self:?}").

Fixpoint string_of (t : AbiType) : outcome string :=
  let strings := fix go (l : list AbiType) : outcome (list string) :=
    match l with
    | [] => Ok []
    | c :: cs => x <- string_of c;; xs <- go cs;; Ok (x :: xs)
    end in
  match t with
  | mkAbiType id ch bs pr sl =>
      if id =? UINT then
        match bs, pr, sl, ch with
        | Some b, None, None, [] => Ok ("uint" ++ fmt_uint b)
        | _, _, _, _ => not_serializable
        end
      else if id =? BYTE then
        match bs, pr, sl, ch with
        | None, None, None, [] => Ok "byte"
        | _, _, _, _ => not_serializable
        end
      else if id =? UFIXED then
        match bs, pr, sl, ch with
        | Some b, Some p, None, [] => Ok ("ufixed" ++ fmt_uint b ++ fmt_uint p)
        | _, _, _, _ => not_serializable
        end
      else if id =? BOOL then
        match bs, pr, sl, ch with
        | None, None, None, [] => Ok "bool"
        | _, _, _, _ => not_serializable
        end
      else if id =? ARRAY_STATIC then
        match bs, pr, sl, ch with
        | None, None, Some n, c0 :: _ =>
            x <- string_of c0;; Ok (x ++ "[" ++ fmt_uint n ++ "]")
        | _, _, _, _ => not_serializable
        end
      else if id =? ARRAY_DYNAMIC then
        match bs, pr, sl, ch with
        | None, None, None, c0 :: _ => x <- string_of c0;; Ok (x ++ "[]")
        | _, _, _, _ => not_serializable
        end
      else if id =? STRING then
        match bs, pr, sl, ch with
        | None, None, None, [] => Ok "string"
        | _, _, _, _ => not_serializable
        end
      else if id =? TUPLE then
        match bs, pr, sl with
        | None, None, None =>
            type_strings <- strings ch;; Ok ("(" ++ String.concat "," type_strings ++ ")")
        | _, _, _ => not_serializable
        end
      else not_serializable
  end.

Definition make_dynamic_array_type (arg_type : AbiType) : AbiType :=
  mkAbiType ARRAY_DYNAMIC [arg_type] None None None.

Definition make_static_array_type (arg_type : AbiType) (array_len : Z) : AbiType :=
  mkAbiType ARRAY_STATIC [arg_type] None None (Some array_len).

(** [make_uint_type(type_size: i32)]; [%] is the truncated remainder. *)
Definition make_uint_type (type_size : Z) : outcome AbiType :=
  if negb (Z.rem type_size 8 =? 0) || (type_size <? 8) || (512 <? type_size) then
    Err (Msg ("unsupported uint type bitSize: " ++ fmt_uint type_size))
  else Ok (mkAbiType UINT [] (Some type_size) None None).

Definition make_empty_fields_type (type_ : Z) : AbiType :=
  mkAbiType type_ [] None None None.

(** [make_ufixed_type(type_size: u32, type_precision: u32)]. *)
Definition make_ufixed_type (type_size type_precision : Z) : outcome AbiType :=
  if negb (Z.rem type_size 8 =? 0) || negb ((8 <=? type_size) && (type_size <=? 512)) then
    Err (Msg ("unsupported ufixed type bitSize: " ++ fmt_uint type_size))
  else if negb ((1 <=? type_precision) && (type_precision <=? 160)) then
    Err (Msg ("unsupported ufixed type precision: " ++ fmt_uint type_precision))
  else Ok (mkAbiType UFIXED [] (Some type_size) (Some type_precision) None).

(** [make_tuple_type] of abi_type.rs; [u16::MAX] is 65535. *)
Definition make_tuple_type (argument_types : list AbiType) : outcome AbiType :=
  if (65535 <=? Z.of_nat (length argument_types)) then
    Err (Msg "tuple type child type number larger than maximum uint16 error")
  else Ok (mkAbiType TUPLE argument_types None None (Some (Z.of_nat (length argument_types)))).

(** ** [parse_tuple_content] *)

(** [struct Segment]: char indices of a top-level parenthesised span. *)
Record Segment : Type := mkSegment { left : nat; right : nat }.

(** The [for (index, chr) in str.chars().enumerate()] loop.  The Rust
    [Vec] stack is a list with its top at the head; [paren_segment_record]
    is a list in push order.  [None] is the early [Err] return. *)
Fixpoint scan_parens (cs : list Z) (index : nat) (stack : list nat)
    (paren_segment_record : list Segment) : option (list nat * list Segment) :=
  match cs with
  | [] => Some (stack, paren_segment_record)
  | chr :: rest =>
      if chr =? 40 then scan_parens rest (S index) (index :: stack) paren_segment_record
      else if chr =? 41 then
        match stack with
        | [] => None
        | left_paren_index :: stack' =>
            scan_parens rest (S index) stack'
              (match stack' with
               | [] => paren_segment_record ++ [mkSegment left_paren_index index]
               | _ => paren_segment_record
               end)
        end
      else scan_parens rest (S index) stack paren_segment_record
  end.

(** The [for paren_seg in paren_segment_record.iter().rev()] loop, run over
    the already reversed list: each span is cut out by byte slicing. *)
Fixpoint cut_segments (segs : list Segment) (str_copied : string) : outcome string :=
  match segs with
  | [] => Ok str_copied
  | paren_seg :: rest =>
      a <- slice str_copied 0 (left paren_seg);;
      b <- slice str_copied (S (right paren_seg)) (len str_copied);;
      cut_segments rest (a ++ b)
  end.

(** The final loop: an empty piece takes the next recorded span
    ([paren_segment_record[paren_seg_count]] panics past the end). *)
Fixpoint put_back (str : string) (paren_segment_record : list Segment)
    (tuple_str_segs : list string) (paren_seg_count : nat) : outcome (list string) :=
  match tuple_str_segs with
  | [] => Ok []
  | seg_str :: rest =>
      if String.eqb seg_str "" then
        match nth_error paren_segment_record paren_seg_count with
        | None => Panic
        | Some paren_seg =>
            piece <- slice str (left paren_seg) (S (right paren_seg));;
            tl <- put_back str paren_segment_record rest (S paren_seg_count);;
            Ok (piece :: tl)
        end
      else
        tl <- put_back str paren_segment_record rest paren_seg_count;;
        Ok (seg_str :: tl)
  end.

Definition parse_tuple_content (str : string) : outcome (list string) :=
  if String.eqb str "" then Ok []
  else if ends_with "," str || starts_with "," str then
    Err (Msg "parsing error: tuple content should not start with comma")
  else if contains ",," str then Err (Msg "no consecutive commas")
  else
    match scan_parens (chars str) 0 [] [] with
    | None => Err (Msg ("unpaired parentheses: " ++ str))
    | Some (stack, paren_segment_record) =>
        match stack with
        | _ :: _ => Err (Msg ("unpaired parentheses: " ++ str))
        | [] =>
            str_copied <- cut_segments (rev paren_segment_record) str;;
            put_back str paren_segment_record (split_comma str_copied) 0
        end
    end.

(** ** [<AbiType as FromStr>::from_str]

    Every recursive call is on a strictly shorter string (the text before a
    trailing [[]], a capture group, or a piece of the text between the outer
    parentheses), so the fuel [S (len s)] of [parse] is never exhausted. *)

Fixpoint parse_all (parse : string -> outcome AbiType) (l : list string)
    : outcome (list AbiType) :=
  match l with
  | [] => Ok []
  | t :: ts => ti <- parse t;; rest <- parse_all parse ts;; Ok (ti :: rest)
  end.

Fixpoint from_str_fuel (fuel : nat) (s : string) : outcome AbiType :=
  match fuel with
  | O => Panic
  | S fuel' =>
  match strip_suffix "[]" s with
  | Some stripped =>
      array_arg_type <- from_str_fuel fuel' stripped;;
      Ok (make_dynamic_array_type array_arg_type)
  | None =>
  if ends_with "]" s then
    match date_re_captures s with
    | None => Panic
    | Some caps =>
        if negb (length caps =? 3)%nat then Err (Msg ("ill formed uint type: " ++ s))
        else
          match nth_error caps 1, nth_error caps 2 with
          | Some c1, Some array_len_s =>
              array_type <- from_str_fuel fuel' c1;;
              match parse_usize array_len_s with
              | None => Err (Msg ("Error parsing array len: " ++ array_len_s))
              | Some array_len =>
                  if array_len <=? 65535 then Ok (make_static_array_type array_type array_len)
                  else Err (Msg "Couldn't convert array_len: {array_len} in u16")
              end
          | _, _ => Panic
          end
    end
  else match strip_prefix "uint" s with
  | Some stripped =>
      match parse_i32 stripped with
      | None => Err (Msg ("Ill formed uint type: " ++ s))
      | Some type_size => make_uint_type type_size
      end
  | None =>
  if String.eqb s "byte" then Ok (make_empty_fields_type BYTE)
  else if starts_with "ufixed" s then
    match ufixed_re_captures s with
    | None => Panic
    | Some caps =>
        if negb (length caps =? 3)%nat then Err (Msg ("ill formed ufixed type: " ++ s))
        else
          match nth_error caps 1, nth_error caps 2 with
          | Some ufixed_size_s, Some ufixed_precision_s =>
              match parse_u32 ufixed_size_s with
              | None => Err (Msg ("Error parsing ufixed size: " ++ ufixed_size_s))
              | Some ufixed_size =>
                  match parse_u32 ufixed_precision_s with
                  | None => Err (Msg ("Error parsing ufixed precision: " ++ ufixed_precision_s))
                  | Some ufixed_precision => make_ufixed_type ufixed_size ufixed_precision
                  end
              end
          | _, _ => Panic
          end
    end
  else if String.eqb s "bool" then Ok (make_empty_fields_type BOOL)
  else if String.eqb s "address" then Ok (make_empty_fields_type ADDRESS)
  else if String.eqb s "string" then Ok (make_empty_fields_type STRING)
  else if (2 <=? len s)%nat && starts_with "(" s && ends_with ")" s then
    inner <- slice s 1 (len s - 1);;
    tuple_content <- parse_tuple_content inner;;
    tuple_types <- parse_all (from_str_fuel fuel') tuple_content;;
    make_tuple_type tuple_types
  else Err (Msg ("cannot convert string: " ++ s ++ " to ABI type"))
  end
  end
  end.

(** [s.parse::<AbiType>()]. *)
Definition parse (s : string) : outcome AbiType := from_str_fuel (S (len s)) s.

(** ** [make_tuple_type] of lib.rs, the crate's public constructor

    The element types are serialized with [AbiType::string] (the first
    error is returned), joined into [(t0,...,tk)] and parsed back. *)
Fixpoint strings_of (l : list AbiType) : outcome (list string) :=
  match l with
  | [] => Ok []
  | arg :: rest => x <- string_of arg;; xs <- strings_of rest;; Ok (x :: xs)
  end.

Definition lib_make_tuple_type (argument_types : list AbiType) : outcome AbiType :=
  if (length argument_types =? 0)%nat then
    Err (Msg "tuple must contain at least one type")
  else if 65535 <=? Z.of_nat (length argument_types) then
    Err (Msg "tuple type child type number larger than maximum uint16 error")
  else
    strs <- strings_of argument_types;;
    parse ("(" ++ String.concat "," strs ++ ")").

(** ** Methods (interactions.rs) *)

Inductive TransactionArgType : Type :=
| Any | Payment | KeyRegistration | AssetConfig | AssetTransfer | AssetFreeze | AppCall.

Definition TransactionArgType_from_api_str (s : string) : outcome TransactionArgType :=
  if String.eqb s "Any" then Ok Any
  else if String.eqb s "Payment" then Ok Payment
  else if String.eqb s "KeyRegistration" then Ok KeyRegistration
  else if String.eqb s "AssetConfig" then Ok AssetConfig
  else if String.eqb s "AssetTransfer" then Ok AssetTransfer
  else if String.eqb s "AssetFreeze" then Ok AssetFreeze
  else if String.eqb s "AppCall" then Ok AppCall
  else Err (Msg ("Not supported transaction arg type api string: " ++ s)).

Definition is_ok {A} (r : outcome A) : bool :=
  match r with Ok _ => true | _ => false end.

Definition TransactionArgType_is_valid_str (s : string) : bool :=
  is_ok (TransactionArgType_from_api_str s).

Inductive ReferenceArgType : Type :=
| Account | Asset | Application.

Definition ReferenceArgType_from_api_str (s : string) : outcome ReferenceArgType :=
  if String.eqb s "AccountReferenceType" then Ok Account
  else if String.eqb s "AssetReferenceType" then Ok Asset
  else if String.eqb s "ApplicationReferenceType" then Ok Application
  else Err (Msg ("Not supported reference arg type api string: " ++ s)).

Definition ReferenceArgType_is_valid_str (s : string) : bool :=
  is_ok (ReferenceArgType_from_api_str s).

(** [struct AbiArg]; the fields [name], [type_], [description], [parsed]
    carry the prefix [arg_]. *)
Record AbiArg : Type := mkAbiArg {
  arg_name : option string;
  arg_type_ : string;
  arg_description : option string;
  arg_parsed : option AbiType
}.

Definition is_transaction_arg (a : AbiArg) : bool :=
  TransactionArgType_is_valid_str (arg_type_ a).

Definition is_reference_arg (a : AbiArg) : bool :=
  ReferenceArgType_is_valid_str (arg_type_ a).

(** [AbiArg::get_type_object(&mut self)]: the result and the updated
    argument (its [parsed] cache filled). *)
Definition arg_get_type_object (a : AbiArg) : outcome (AbiType * AbiArg) :=
  if is_transaction_arg a then
    Err (Msg ("Invalid operation on transaction type: " ++ arg_type_ a))
  else if is_reference_arg a then
    Err (Msg ("Invalid operation on reference type: " ++ arg_type_ a))
  else match arg_parsed a with
  | Some p => Ok (p, a)
  | None =>
      type_obj <- parse (arg_type_ a);;
      Ok (type_obj, mkAbiArg (arg_name a) (arg_type_ a) (arg_description a) (Some type_obj))
  end.

(** [struct AbiReturn], fields prefixed [ret_]. *)
Record AbiReturn : Type := mkAbiReturn {
  ret_type_ : string;
  ret_description : option string;
  ret_parsed : option AbiType
}.

Definition is_void (r : AbiReturn) : bool := String.eqb (ret_type_ r) "void".

Definition ret_get_type_object (r : AbiReturn) : outcome (AbiType * AbiReturn) :=
  if is_void r then Err (Msg "Invalid operation on void return type")
  else match ret_parsed r with
  | Some p => Ok (p, r)
  | None =>
      type_obj <- parse (ret_type_ r);;
      Ok (type_obj, mkAbiReturn (ret_type_ r) (ret_description r) (Some type_obj))
  end.

(** [struct AbiMethod]. *)
Record AbiMethod : Type := mkAbiMethod {
  name : string;
  description : option string;
  args : list AbiArg;
  returns : AbiReturn
}.

(** [AbiMethod::get_signature]: [Vec::join] is [String.concat]. *)
Definition get_signature (m : AbiMethod) : string :=
  let method_signature := name m ++ "(" in
  let str_types := map arg_type_ (args m) in
  method_signature ++ String.concat "," str_types ++ ")" ++ ret_type_ (returns m).

(** [AbiMethod::get_tx_count]. *)
Definition get_tx_count (m : AbiMethod) : nat :=
  1 + length (filter is_transaction_arg (args m)).

(** The loop of [parse_method_args]: [k] iterations remain of the range
    [init_prev_pos..str_method.len()] (a byte length), and [chars] is the
    collected [Vec<char>], indexed by [cur_pos] (panicking past its end).
    The result is the argument list and [close_idx]. *)
Fixpoint method_args_loop (chars : list Z) (str_method : string) (k cur_pos : nat)
    (paren_cnt : Z) (prev_pos : nat) (arg_types : list string)
    : outcome (list string * option nat) :=
  match k with
  | O => Ok (arg_types, None)
  | S k' =>
      match nth_error chars cur_pos with
      | None => Panic
      | Some c =>
          let paren_cnt :=
            if c =? 40 then paren_cnt + 1 else if c =? 41 then paren_cnt - 1 else paren_cnt in
          if paren_cnt <? 0 then Err (Msg "method signature parentheses mismatch")
          else if 1 <? paren_cnt then
            method_args_loop chars str_method k' (S cur_pos) paren_cnt prev_pos arg_types
          else
            st <- (if (c =? 44) || (paren_cnt =? 0) then
                     str_arg <- slice str_method prev_pos cur_pos;;
                     Ok (arg_types ++ [str_arg], S cur_pos)
                   else Ok (arg_types, prev_pos));;
            let '(arg_types, prev_pos) := st in
            if paren_cnt =? 0 then Ok (arg_types, Some cur_pos)
            else method_args_loop chars str_method k' (S cur_pos) paren_cnt prev_pos arg_types
      end
  end%list.

(** [parse_method_args]; [str_method.len() - 1] does not underflow, as the
    caller found a [(] in [str_method]. *)
Definition parse_method_args (str_method : string) (start_idx : nat)
    : outcome (list string * nat) :=
  if (start_idx <? len str_method - 1)%nat
     && match nth_error (chars str_method) (S start_idx) with
        | Some c => c =? 41
        | None => false
        end
  then Ok ([], S start_idx)
  else
    let init_prev_pos := S start_idx in
    r <- method_args_loop (chars str_method) str_method (len str_method - init_prev_pos)
           init_prev_pos 1 init_prev_pos [];;
    match r with
    | (arg_types, Some close_idx) => Ok (arg_types, close_idx)
    | (_, None) => Err (Msg "method signature parentheses mismatch")
    end.

(** [Iterator::position] over [chars()]. *)
Fixpoint position (c : Z) (l : list Z) : option nat :=
  match l with
  | [] => None
  | x :: r => if x =? c then Some O else option_map S (position c r)
  end.

(** The argument loop of [from_signature]: transaction and reference
    arguments are kept as they are, the others get their type parsed and
    cached. *)
Fixpoint build_args (arg_types : list string) : outcome (list AbiArg) :=
  match arg_types with
  | [] => Ok []
  | arg_type :: rest =>
      let arg := mkAbiArg None arg_type None None in
      arg <- (if TransactionArgType_is_valid_str arg_type
                 || ReferenceArgType_is_valid_str arg_type
              then Ok arg
              else p <- arg_get_type_object arg;; Ok (snd p));;
      args <- build_args rest;;
      Ok (arg :: args)
  end.

(** [AbiMethod::from_signature]: [open_idx] is a char index, used as a byte
    index by the slices. *)
Definition from_signature (method_str : string) : outcome AbiMethod :=
  match position 40 (chars method_str) with
  | None => Err (Msg "method signature is missing an open parenthesis")
  | Some open_idx =>
      name <- slice method_str 0 open_idx;;
      if String.eqb name "" then Err (Msg "method must have a non empty name")
      else
        r <- parse_method_args method_str open_idx;;
        let '(arg_types, close_idx) := r in
        ret_ty <- slice method_str (S close_idx) (len method_str);;
        let return_type := mkAbiReturn ret_ty None None in
        return_type <- (if negb (is_void return_type) then
                          p <- ret_get_type_object return_type;; Ok (snd p)
                        else Ok return_type);;
        args <- build_args arg_types;;
        Ok (mkAbiMethod name None args return_type)
  end.

(** [AbiMethod::get_selector], for the digest function [sha512_256] of the
    [sha2] crate ([Sha512_256::digest]), applied to the UTF-8 bytes of the
    signature: [sig_hash[..4]] panics on a digest shorter than 4 bytes, and
    [try_into::<[u8; 4]>] of the 4-byte slice then succeeds. *)
Definition as_bytes (s : string) : list Z := map byte_of (list_ascii_of_string s).

Definition get_selector (sha512_256 : list Z -> list Z) (m : AbiMethod)
    : outcome (Z * Z * Z * Z) :=
  let sig := get_signature m in
  let sig_hash := sha512_256 (as_bytes sig) in
  if (4 <=? length sig_hash)%nat then
    match firstn 4 sig_hash with
    | [b0; b1; b2; b3] => Ok (b0, b1, b2, b3)
    | _ => Panic
    end
  else Panic.

(** ** Vocabulary of the specification *)

(** The seven transaction-kind keywords and the three reference-kind
    keywords, as the specification lists them. *)
Definition transaction_kind_keywords : list string :=
  ["Any"; "Payment"; "KeyRegistration"; "AssetConfig"; "AssetTransfer";
   "AssetFreeze"; "AppCall"].

Definition reference_kind_keywords : list string :=
  ["AccountReferenceType"; "AssetReferenceType"; "ApplicationReferenceType"].

(** Matched parentheses: scanning left to right, the depth never goes
    below zero and ends at zero. *)
Fixpoint parens_matched_from (depth : nat) (cs : list Z) : bool :=
  match cs with
  | [] => (depth =? 0)%nat
  | c :: r =>
      if c =? 40 then parens_matched_from (S depth) r
      else if c =? 41 then
        match depth with
        | O => false
        | S d => parens_matched_from d r
        end
      else parens_matched_from depth r
  end.

Definition parens_matched (cs : list Z) : bool := parens_matched_from 0 cs.

(** Top-level pieces of a tuple's inner text: a plain piece (nonempty, with
    no comma and no parenthesis) or a parenthesised group whose inside has
    matched parentheses. *)
Inductive piece : Type :=
| Plain (p : string)
| Group (u : string).

Definition piece_text (t : piece) : string :=
  match t with
  | Plain p => p
  | Group u => "(" ++ u ++ ")"
  end.

Definition ascii_only (s : string) : bool :=
  forallb (fun a => byte_of a <? 128) (list_ascii_of_string s).

Definition piece_wf (t : piece) : Prop :=
  ascii_only (piece_text t) = true /\
  match t with
  | Plain p =>
      p <> "" /\
      forallb (fun a => negb (Ascii.eqb a "," || Ascii.eqb a "(" || Ascii.eqb a ")"))
        (list_ascii_of_string p) = true
  | Group u => parens_matched (chars u) = true
  end.

(** The spans [parse_tuple_content] records for a list of pieces whose
    text starts at char index [i], and the text left in each piece once the
    spans are cut out. *)
Definition piece_record (t : piece) (i : nat) : list Segment :=
  match t with
  | Plain _ => []
  | Group u => [mkSegment i (i + len u + 1)]
  end.

Fixpoint piece_records (ts : list piece) (i : nat) : list Segment :=
  match ts with
  | [] => []
  | t :: rest => (piece_record t i ++ piece_records rest (i + len (piece_text t) + 1))%list
  end.

Definition stripped (t : piece) : string :=
  match t with
  | Plain p => p
  | Group _ => ""
  end.

(** The shape of the types the constructors of abi_type.rs build: a uint
    or ufixed bit size is a multiple of 8 in [8, 512], a ufixed precision is
    in [1, 160], an array has exactly one element type, a static length is
    a [u16], a tuple records its arity in [static_length], and the fields a
    base type does not use are [None]. *)
Definition valid_bit_size (b : Z) : bool := (Z.rem b 8 =? 0) && (8 <=? b) && (b <=? 512).

Fixpoint wf_type (t : AbiType) : bool :=
  match t with
  | mkAbiType id ch bs pr sl =>
      if id =? UINT then
        match bs, pr, sl, ch with
        | Some b, None, None, [] => valid_bit_size b
        | _, _, _, _ => false
        end
      else if id =? UFIXED then
        match bs, pr, sl, ch with
        | Some b, Some p, None, [] => valid_bit_size b && (1 <=? p) && (p <=? 160)
        | _, _, _, _ => false
        end
      else if (id =? BYTE) || (id =? BOOL) || (id =? ADDRESS) || (id =? STRING) then
        match bs, pr, sl, ch with
        | None, None, None, [] => true
        | _, _, _, _ => false
        end
      else if id =? ARRAY_DYNAMIC then
        match bs, pr, sl, ch with
        | None, None, None, [c] => wf_type c
        | _, _, _, _ => false
        end
      else if id =? ARRAY_STATIC then
        match bs, pr, sl, ch with
        | None, None, Some n, [c] => (0 <=? n) && (n <=? 65535) && wf_type c
        | _, _, _, _ => false
        end
      else if id =? TUPLE then
        match bs, pr, sl with
        | None, None, Some n =>
            (n =? Z.of_nat (length ch)) && (n <? 65535) && forallb wf_type ch
        | _, _, _ => false
        end
      else false
  end.

(** The types with a text form that both directions handle: uint, byte,
    bool, string, and dynamic arrays of these. *)
Fixpoint simple_type (t : AbiType) : bool :=
  match t with
  | mkAbiType id ch bs pr sl =>
      if id =? UINT then
        match bs, pr, sl, ch with
        | Some b, None, None, [] => valid_bit_size b
        | _, _, _, _ => false
        end
      else if (id =? BYTE) || (id =? BOOL) || (id =? STRING) then
        match bs, pr, sl, ch with
        | None, None, None, [] => true
        | _, _, _, _ => false
        end
      else if id =? ARRAY_DYNAMIC then
        match bs, pr, sl, ch with
        | None, None, None, [c] => simple_type c
        | _, _, _, _ => false
        end
      else false
  end.

(** Induction over [AbiType] reaching the element types. *)
Fixpoint AbiType_ind_deep (P : AbiType -> Prop)
    (H : forall id ch bs pr sl, Forall P ch -> P (mkAbiType id ch bs pr sl))
    (t : AbiType) : P t :=
  match t with
  | mkAbiType id ch bs pr sl =>
      H id ch bs pr sl
        ((fix go (l : list AbiType) : Forall P l :=
            match l with
            | [] => Forall_nil P
            | c :: cs => Forall_cons c (AbiType_ind_deep P H c) (go cs)
            end) ch)
  end.

(** The bit sizes [valid_bit_size] accepts, and a test of the text
    ["uint" ++ fmt_uint b] against every branch [from_str] takes before the
    uint arm, and against the shape of a plain tuple piece. *)
Definition uint_sizes : list Z := map (fun k => 8 * Z.of_nat k) (seq 1 64).

Definition no_sep_chars (p : string) : bool :=
  forallb (fun a => negb (Ascii.eqb a "," || Ascii.eqb a "(" || Ascii.eqb a ")"))
    (list_ascii_of_string p).

Definition uint_check (b : Z) : bool :=
  let s := "uint" ++ fmt_uint b in
  match strip_suffix "[]" s with None => true | Some _ => false end
  && negb (ends_with "]" s)
  && match strip_prefix "uint" s with
     | Some st => match parse_i32 st with Some n => n =? b | None => false end
     | None => false
     end
  && ascii_only s && negb (String.eqb s "") && no_sep_chars s.

(** The text [get_signature] puts between the parentheses of a method, with
    a trailing comma (the loop of [parse_method_args] reads one argument per
    comma). *)
Definition joinc (l : list string) : string :=
  match l with [] => "" | _ => String.concat "," l ++ "," end.

(** A text of ASCII decimal digits only, as [fmt_uint] writes. *)
Definition ascii_digits (s : string) : bool :=
  forallb (fun a => (48 <=? byte_of a) && (byte_of a <=? 57)) (list_ascii_of_string s).

(** A type with a tuple at any depth. *)
Fixpoint contains_tuple (t : AbiType) : bool :=
  match t with
  | mkAbiType id ch _ _ _ => (id =? TUPLE) || existsb contains_tuple ch
  end.

(** A stand-in digest of the right length, to exercise the theorem. *)
Definition constant_digest (bs : list Z) : list Z := repeat 7 32.

(** ** Theorems *)

Ltac exists_ok :=
  match goal with
  | |- exists m, ?f = Ok m /\ _ =>
      let v := eval vm_compute in f in
      match v with Ok ?m => exists m end;
      split; [vm_compute; reflexivity | ]
  end.

(** C1 (code_bug).  The type codec does not round trip: [ufixed128x10]
    parses to the ufixed type with 128 bits and precision 10, which
    serialises without its [x] separator as [ufixed12810], and parsing that
    panics; a parsed tuple such as [(uint8)] records its arity in
    [static_length], which the serialiser's tuple arm refuses. *)
Theorem type_codec_roundtrip_fails :
  (exists t, parse "ufixed128x10" = Ok t /\
     string_of t = Ok "ufixed12810" /\ parse "ufixed12810" = Panic) /\
  (exists t, parse "(uint8)" = Ok t /\
     string_of t = Err (Msg "Invalid state: not serializable abi type state: {self:?}")).
Proof.
  split; exists_ok; vm_compute; auto.
Qed.

(** C2 (code_bug).  The type parser is not total: the static-array text
    [uint64[3]] and the ufixed text [ufixed8x0] make it panic (an [unwrap]
    of regular-expression captures that are absent) instead of returning an
    error. *)
Theorem parse_panics_on_inputs :
  parse "uint64[3]" = Panic /\ parse "ufixed8x0" = Panic.
Proof.
  split; vm_compute; reflexivity.
Qed.

(** C3 (code_bug).  A text ending in a closing bracket but not in an empty
    pair of brackets is never parsed as a static array: [uint64[3]], [byte[32]] and [(uint8,bool)[2]] all make
    the parser panic. *)
Theorem parse_static_array_panics :
  parse "uint64[3]" = Panic /\ parse "byte[32]" = Panic /\ parse "(uint8,bool)[2]" = Panic.
Proof.
  repeat split; vm_compute; reflexivity.
Qed.

(** C4 (code_bug).  [ufixed128x10] parses with 128 bits and precision 10,
    [ufixed8x161] is refused with an error, but [ufixed8x0] panics. *)
Theorem parse_ufixed_examples :
  parse "ufixed128x10" = Ok (mkAbiType UFIXED [] (Some 128) (Some 10) None) /\
  parse "ufixed8x161" = Err (Msg "unsupported ufixed type precision: 161") /\
  parse "ufixed8x0" = Panic.
Proof.
  repeat split; vm_compute; reflexivity.
Qed.

(** C5 (code_bug).  [from_signature] of [add(uint32,uint32)uint32] gives
    the name [add], two arguments of raw type [uint32] and the return raw
    type [uint32], and [get_signature] gives the text back; but for the
    accepted text [éé()[]] (two two-byte letters) the char index of the
    parenthesis is used as a byte index, the name becomes [é], the return
    type [()[]], and the signature [é()()[]] differs from the input. *)
Theorem get_signature_roundtrip_examples :
  (exists m, from_signature "add(uint32,uint32)uint32" = Ok m /\
     name m = "add" /\ map arg_type_ (args m) = ["uint32"; "uint32"] /\
     ret_type_ (returns m) = "uint32" /\
     get_signature m = "add(uint32,uint32)uint32") /\
  (exists m, from_signature "éé()[]" = Ok m /\
     get_signature m = "é()()[]" /\ get_signature m <> "éé()[]").
Proof.
  split; exists_ok; vm_compute; repeat split; discriminate.
Qed.

Section Selector.

Variable sha512_256 : list Z -> list Z.
Hypothesis sha512_256_len : forall bs, length (sha512_256 bs) = 32%nat.

(** C6.  For every method, [get_selector] returns the first four bytes, in
    order, of the 32-byte digest of the UTF-8 bytes of [get_signature]. *)
Theorem get_selector_first_four_bytes (m : AbiMethod) :
  exists b0 b1 b2 b3,
    get_selector sha512_256 m = Ok (b0, b1, b2, b3) /\
    firstn 4 (sha512_256 (as_bytes (get_signature m))) = [b0; b1; b2; b3].
Proof.
  unfold get_selector.
  remember (sha512_256 (as_bytes (get_signature m))) as h eqn:Eh.
  assert (Hl : length h = 32%nat) by (subst h; apply sha512_256_len).
  do 5 (destruct h as [|? h]; [discriminate Hl|]).
  simpl. eauto 6.
Qed.

End Selector.

Lemma get_selector_first_four_bytes_witness :
  (forall bs, length (constant_digest bs) = 32%nat) /\
  exists b0 b1 b2 b3,
    get_selector constant_digest (mkAbiMethod "add" None [] (mkAbiReturn "void" None None))
      = Ok (b0, b1, b2, b3) /\
    firstn 4 (constant_digest (as_bytes (get_signature
      (mkAbiMethod "add" None [] (mkAbiReturn "void" None None))))) = [b0; b1; b2; b3].
Proof.
  assert (H : forall bs, length (constant_digest bs) = 32%nat)
    by (intros; reflexivity).
  split; [exact H | apply (get_selector_first_four_bytes constant_digest H)].
Defined.

Lemma is_transaction_arg_keywords (a : AbiArg) :
  is_transaction_arg a = existsb (String.eqb (arg_type_ a)) transaction_kind_keywords.
Proof.
  unfold is_transaction_arg, TransactionArgType_is_valid_str,
    TransactionArgType_from_api_str; simpl.
  repeat match goal with
         | |- context [String.eqb (arg_type_ a) ?k] =>
             destruct (String.eqb (arg_type_ a) k); [reflexivity | simpl]
         end.
  reflexivity.
Qed.

(** C9.  [get_tx_count] is one plus the number of arguments whose raw type
    is one of the seven transaction-kind keywords; a reference-kind keyword
    is no transaction argument; and [from_signature] of [add()void] has no
    argument and a transaction count of 1. *)
Theorem get_tx_count_spec :
  (forall m, get_tx_count m =
     S (length (filter (fun a => existsb (String.eqb (arg_type_ a)) transaction_kind_keywords)
                 (args m)))) /\
  (forall a, In (arg_type_ a) reference_kind_keywords -> is_transaction_arg a = false) /\
  (exists m, from_signature "add()void" = Ok m /\
     args m = [] /\ ret_type_ (returns m) = "void" /\ get_tx_count m = 1%nat).
Proof.
  split; [|split].
  - intros m. unfold get_tx_count.
    rewrite (filter_ext _ _ is_transaction_arg_keywords). reflexivity.
  - intros a Ha. rewrite is_transaction_arg_keywords.
    destruct a as [n t d p]; simpl in *.
    destruct Ha as [<-|[<-|[<-|[]]]]; reflexivity.
  - exists_ok. vm_compute. auto.
Qed.

(** ** The splitter's rejections *)

Lemma scan_parens_unmatched (cs : list Z) :
  forall i stack record,
    parens_matched_from (length stack) cs = false ->
    scan_parens cs i stack record = None \/
    exists x stack' record', scan_parens cs i stack record = Some (x :: stack', record').
Proof.
  induction cs as [|c cs IH]; intros i stack record H; simpl in *.
  - destruct stack as [|x stack']; [discriminate H|]. right; eauto.
  - destruct (c =? 40).
    + apply (IH _ (i :: stack)). exact H.
    + destruct (c =? 41).
      * destruct stack as [|l stack']; [left; reflexivity|].
        apply IH. exact H.
      * apply IH. exact H.
Qed.

(** C8.  The splitter returns an error on a text with a leading comma, a
    trailing comma, two consecutive commas, or unmatched parentheses. *)
Theorem parse_tuple_content_rejects (str : string) :
  starts_with "," str = true \/ ends_with "," str = true \/ contains ",," str = true \/
  parens_matched (chars str) = false ->
  exists e, parse_tuple_content str = Err e.
Proof.
  intros H. unfold parse_tuple_content.
  destruct (String.eqb str "") eqn:E0.
  { apply String.eqb_eq in E0. subst str. vm_compute in H.
    destruct H as [H|[H|[H|H]]]; discriminate H. }
  destruct (ends_with "," str || starts_with "," str) eqn:E1; [eauto|].
  destruct (contains ",," str) eqn:E2; [eauto|].
  apply orb_false_iff in E1 as [E1a E1b].
  assert (Hp : parens_matched (chars str) = false).
  { destruct H as [H|[H|[H|H]]]; congruence. }
  destruct (scan_parens_unmatched (chars str) 0 [] [] Hp)
    as [Hn | (x & st' & r' & Hs)].
  - rewrite Hn. eauto.
  - rewrite Hs. eauto.
Qed.

Lemma parse_tuple_content_rejects_witness :
  (starts_with "," "(uint8" = true \/ ends_with "," "(uint8" = true \/
   contains ",," "(uint8" = true \/ parens_matched (chars "(uint8") = false) /\
  exists e, parse_tuple_content "(uint8" = Err e.
Proof.
  assert (H : starts_with "," "(uint8" = true \/ ends_with "," "(uint8" = true \/
              contains ",," "(uint8" = true \/ parens_matched (chars "(uint8") = false)
    by (right; right; right; vm_compute; reflexivity).
  split; [exact H | apply (parse_tuple_content_rejects "(uint8" H)].
Defined.

(** ** The splitter on well-formed input *)

Lemma sapp_assoc (a b c : string) : (a ++ b) ++ c = a ++ (b ++ c).
Proof. induction a as [|x a IH]; simpl; congruence. Qed.

Lemma sapp_nil_r (a : string) : a ++ "" = a.
Proof. induction a as [|x a IH]; simpl; congruence. Qed.

Lemma len_app (a b : string) : len (a ++ b) = (len a + len b)%nat.
Proof. unfold len. induction a as [|x a IH]; simpl; congruence. Qed.

Lemma concat_cons2 (sep x y : string) (l : list string) :
  String.concat sep (x :: y :: l) = x ++ sep ++ String.concat sep (y :: l).
Proof. reflexivity. Qed.

Lemma ascii_only_app (a b : string) :
  ascii_only (a ++ b) = ascii_only a && ascii_only b.
Proof.
  unfold ascii_only. induction a as [|x a IH]; simpl; [reflexivity|].
  rewrite IH. apply andb_assoc.
Qed.

Lemma chars_cons_ascii (a : ascii) (s : string) :
  (byte_of a <? 128) = true -> chars (String a s) = byte_of a :: chars s.
Proof. intros H. cbn [chars]. rewrite H. reflexivity. Qed.

Lemma chars_app_ascii (a b : string) :
  ascii_only a = true -> chars (a ++ b) = (chars a ++ chars b)%list.
Proof.
  induction a as [|x a IH]; intros H; [reflexivity|].
  unfold ascii_only in H; cbn [list_ascii_of_string forallb] in H.
  apply andb_true_iff in H as [Hx Ha].
  change (String x a ++ b) with (String x (a ++ b)).
  rewrite !chars_cons_ascii by exact Hx.
  rewrite IH by exact Ha. reflexivity.
Qed.

Lemma length_chars_ascii (a : string) :
  ascii_only a = true -> length (chars a) = len a.
Proof.
  induction a as [|x a IH]; intros H; [reflexivity|].
  unfold ascii_only in H; cbn [list_ascii_of_string forallb] in H.
  apply andb_true_iff in H as [Hx Ha].
  rewrite chars_cons_ascii by exact Hx. cbn [length]. unfold len in *. cbn.
  rewrite IH by exact Ha. reflexivity.
Qed.

Lemma substring_app_r (a b : string) (n m : nat) :
  substring (len a + n) m (a ++ b) = substring n m b.
Proof. induction a as [|x a IH]; simpl; auto. Qed.

Lemma substring_prefix (a b : string) : substring 0 (len a) (a ++ b) = a.
Proof. unfold len. induction a as [|x a IH]; simpl; [destruct b; reflexivity|congruence]. Qed.

Lemma get_ascii (s : string) (i : nat) :
  ascii_only s = true -> (i <= len s)%nat ->
  match String.get i s with None => i = len s | Some c => byte_of c < 128 end.
Proof.
  revert i. induction s as [|x s IH]; intros i H Hi; unfold len in *; simpl in Hi.
  - destruct i; [reflexivity | lia].
  - unfold ascii_only in H; cbn [list_ascii_of_string forallb] in H.
    apply andb_true_iff in H as [Hx Ha].
    destruct i as [|i]; simpl.
    + apply Z.ltb_lt. exact Hx.
    + specialize (IH i Ha ltac:(lia)). destruct (String.get i s); [exact IH | lia].
Qed.

Lemma is_char_boundary_ascii (s : string) (i : nat) :
  ascii_only s = true -> (i <= len s)%nat -> is_char_boundary s i = true.
Proof.
  intros H Hi. unfold is_char_boundary.
  pose proof (get_ascii s i H Hi) as G.
  destruct (String.get i s).
  - apply Z.ltb_lt in G. rewrite G. apply orb_true_r.
  - subst i. rewrite Nat.eqb_refl. apply orb_true_r.
Qed.

Lemma slice_ascii (s : string) (a b : nat) :
  ascii_only s = true -> (a <= b)%nat -> (b <= len s)%nat ->
  slice s a b = Ok (substring a (b - a) s).
Proof.
  intros H Hab Hb. unfold slice.
  rewrite (proj2 (Nat.leb_le _ _) Hab), (proj2 (Nat.leb_le _ _) Hb).
  rewrite !is_char_boundary_ascii by (auto; lia). reflexivity.
Qed.

Lemma byte_of_inj (a b : ascii) : byte_of a = byte_of b -> a = b.
Proof.
  unfold byte_of. intros H. apply Nat2Z.inj in H.
  rewrite <- (ascii_nat_embedding a), <- (ascii_nat_embedding b), H. reflexivity.
Qed.

Lemma scan_parens_app (l1 l2 : list Z) (i : nat) st r :
  scan_parens (l1 ++ l2) i st r =
  match scan_parens l1 i st r with
  | Some (st', r') => scan_parens l2 (i + length l1) st' r'
  | None => None
  end.
Proof.
  revert i st r. induction l1 as [|c l1 IH]; intros i st r; cbn [app scan_parens length].
  - rewrite Nat.add_0_r. reflexivity.
  - replace (i + S (length l1))%nat with (S i + length l1)%nat by lia.
    destruct (c =? 40); [apply IH|].
    destruct (c =? 41); [|apply IH].
    destruct st as [|l st']; [reflexivity | apply IH].
Qed.

Lemma scan_parens_matched (cs : list Z) :
  forall d ext base i r,
    parens_matched_from d cs = true -> length ext = d -> base <> [] ->
    scan_parens cs i (ext ++ base) r = Some (base, r).
Proof.
  induction cs as [|c cs IH]; intros d ext base i r H Hl Hb; cbn [scan_parens parens_matched_from] in *.
  - apply Nat.eqb_eq in H. subst d. destruct ext; [reflexivity | discriminate Hl].
  - destruct (c =? 40).
    + apply (IH (S d) (i :: ext)); auto. simpl. congruence.
    + destruct (c =? 41).
      * destruct d as [|d]; [discriminate H|].
        destruct ext as [|e ext]; [discriminate Hl|]. cbn [app].
        destruct (ext ++ base)%list eqn:E.
        { apply app_eq_nil in E as [_ ->]. contradiction. }
        rewrite <- E. apply (IH d); auto.
      * apply (IH d); auto.
Qed.

Lemma ascii_only_group (u : string) :
  ascii_only ("(" ++ u ++ ")") = ascii_only u.
Proof.
  rewrite !ascii_only_app. change (ascii_only "(") with true.
  change (ascii_only ")") with true. rewrite andb_true_r. reflexivity.
Qed.

Lemma chars_group (u : string) :
  ascii_only u = true -> chars ("(" ++ u ++ ")") = (40 :: chars u ++ [41])%list.
Proof.
  intros H. change ("(" ++ u ++ ")") with (String "(" (u ++ ")")).
  rewrite chars_cons_ascii by reflexivity.
  rewrite chars_app_ascii by exact H. reflexivity.
Qed.

Lemma scan_group (u : string) (i : nat) r :
  ascii_only u = true -> parens_matched (chars u) = true ->
  scan_parens (chars ("(" ++ u ++ ")")) i [] r
  = Some ([], (r ++ [mkSegment i (i + len u + 1)])%list).
Proof.
  intros Ha Hm. rewrite chars_group by exact Ha.
  cbn [scan_parens]. change (40 =? 40) with true. cbv iota.
  rewrite scan_parens_app.
  rewrite (scan_parens_matched (chars u) 0 [] [i]) by (auto; discriminate).
  rewrite length_chars_ascii by exact Ha.
  cbn. replace (S (i + len u)) with (i + len u + 1)%nat by lia. reflexivity.
Qed.

Lemma scan_plain (p : string) (i : nat) st r :
  ascii_only p = true ->
  forallb (fun a => negb (Ascii.eqb a "," || Ascii.eqb a "(" || Ascii.eqb a ")"))
    (list_ascii_of_string p) = true ->
  scan_parens (chars p) i st r = Some (st, r).
Proof.
  revert i. induction p as [|x p IH]; intros i Ha Hf; [reflexivity|].
  unfold ascii_only in Ha; cbn [list_ascii_of_string forallb] in Ha, Hf.
  apply andb_true_iff in Ha as [Hx Ha]. apply andb_true_iff in Hf as [Hfx Hf].
  rewrite chars_cons_ascii by exact Hx. cbn [scan_parens].
  destruct (Z.eqb_spec (byte_of x) 40) as [E|_].
  { change 40 with (byte_of "(") in E. apply byte_of_inj in E. subst x. discriminate Hfx. }
  destruct (Z.eqb_spec (byte_of x) 41) as [E|_].
  { change 41 with (byte_of ")") in E. apply byte_of_inj in E. subst x. discriminate Hfx. }
  apply IH; assumption.
Qed.

Lemma scan_piece (t : piece) (i : nat) r :
  piece_wf t ->
  scan_parens (chars (piece_text t)) i [] r = Some ([], (r ++ piece_record t i)%list).
Proof.
  intros [Ha Hw]. destruct t as [p|u]; cbn [piece_text piece_record] in *.
  - rewrite app_nil_r. apply scan_plain; tauto.
  - rewrite ascii_only_group in Ha. apply scan_group; assumption.
Qed.

Lemma ascii_only_concat (xs : list string) :
  Forall (fun x => ascii_only x = true) xs -> ascii_only (String.concat "," xs) = true.
Proof.
  induction xs as [|x xs IH]; intros H; [reflexivity|].
  inversion H as [|? ? Hx Hxs]; subst.
  destruct xs as [|y xs]; [exact Hx|].
  rewrite concat_cons2, !ascii_only_app, Hx, IH by exact Hxs. reflexivity.
Qed.

Lemma ascii_only_texts (ts : list piece) :
  Forall piece_wf ts -> ascii_only (String.concat "," (map piece_text ts)) = true.
Proof.
  intros H. apply ascii_only_concat. apply Forall_map.
  eapply Forall_impl; [|exact H]. intros t [Ht _]. exact Ht.
Qed.

Lemma scan_pieces (ts : list piece) :
  Forall piece_wf ts -> forall i r,
  scan_parens (chars (String.concat "," (map piece_text ts))) i [] r
  = Some ([], (r ++ piece_records ts i)%list).
Proof.
  induction ts as [|t ts IH]; intros Hf i r.
  - cbn. rewrite app_nil_r. reflexivity.
  - inversion Hf as [|? ? Ht Hts]; subst.
    destruct ts as [|t2 ts'].
    + cbn [map String.concat piece_records]. rewrite app_nil_r. apply scan_piece. exact Ht.
    + cbn [map]. rewrite concat_cons2.
      assert (Hat : ascii_only (piece_text t) = true) by apply Ht.
      rewrite chars_app_ascii by exact Hat.
      rewrite (chars_app_ascii ",") by reflexivity.
      rewrite scan_parens_app, scan_piece by exact Ht.
      change (chars ",") with [44]. cbn [app scan_parens].
      change (44 =? 40) with false. change (44 =? 41) with false. cbv iota.
      rewrite length_chars_ascii by exact Hat.
      replace (S (i + len (piece_text t)))%nat with (i + len (piece_text t) + 1)%nat by lia.
      change (map piece_text (t2 :: ts')) with (piece_text t2 :: map piece_text ts') in IH.
      rewrite IH by exact Hts. cbn [piece_records]. rewrite <- !app_assoc. reflexivity.
Qed.

Lemma piece_records_cons (t : piece) (ts : list piece) (i : nat) :
  piece_records (t :: ts) i
  = (piece_record t i ++ piece_records ts (i + len (piece_text t) + 1))%list.
Proof. reflexivity. Qed.

Lemma cut_segments_app (l1 l2 : list Segment) (s : string) :
  cut_segments (l1 ++ l2) s = (s' <- cut_segments l1 s;; cut_segments l2 s').
Proof.
  revert s. induction l1 as [|seg l1 IH]; intros s; [reflexivity|].
  cbn [app cut_segments].
  destruct (slice s 0 (left seg)) as [a| |]; [|reflexivity|reflexivity]. cbn [bind].
  destruct (slice s (S (right seg)) (len s)) as [b| |]; [|reflexivity|reflexivity].
  apply IH.
Qed.

Lemma substring_mid (a b c : string) : substring (len a) (len b) (a ++ b ++ c) = b.
Proof.
  rewrite <- (Nat.add_0_r (len a)), substring_app_r. apply substring_prefix.
Qed.

Lemma cut_group (P u R : string) :
  ascii_only (P ++ "(" ++ u ++ ")" ++ R) = true ->
  cut_segments [mkSegment (len P) (len P + len u + 1)] (P ++ "(" ++ u ++ ")" ++ R)
  = Ok (P ++ R).
Proof.
  intros H. cbn [cut_segments left right].
  assert (L : len (P ++ "(" ++ u ++ ")" ++ R) = (len P + S (len u + S (len R)))%nat).
  { rewrite !len_app. reflexivity. }
  rewrite slice_ascii by (auto; lia). cbn [bind].
  rewrite Nat.sub_0_r, substring_prefix.
  rewrite slice_ascii by (auto; lia). cbn [bind].
  set (A := P ++ "(" ++ u ++ ")").
  replace (P ++ "(" ++ u ++ ")" ++ R) with (A ++ R ++ "")
    by (unfold A; rewrite sapp_nil_r, !sapp_assoc; reflexivity).
  replace (S (len P + len u + 1)) with (len A) by (unfold A; rewrite !len_app; cbn; lia).
  replace (len (A ++ R ++ "") - len A)%nat with (len R) by (rewrite !len_app; cbn; lia).
  rewrite substring_mid. reflexivity.
Qed.

Lemma ascii_only_stripped (ts : list piece) :
  Forall piece_wf ts -> ascii_only (String.concat "," (map stripped ts)) = true.
Proof.
  intros H. apply ascii_only_concat. apply Forall_map. eapply Forall_impl; [|exact H].
  intros [p|u] [Ht _]; [exact Ht | reflexivity].
Qed.

Lemma cut_pieces (ts : list piece) :
  Forall piece_wf ts -> forall P, ascii_only P = true ->
  cut_segments (rev (piece_records ts (len P))) (P ++ String.concat "," (map piece_text ts))
  = Ok (P ++ String.concat "," (map stripped ts)).
Proof.
  induction ts as [|t ts IH]; intros Hf P HP; [reflexivity|].
  inversion Hf as [|? ? Ht Hts]; subst.
  assert (Hat : ascii_only (piece_text t) = true) by apply Ht.
  destruct ts as [|t2 ts'].
  - cbn [map String.concat piece_records]. rewrite app_nil_r.
    destruct t as [p|u]; cbn [piece_record stripped piece_text rev app] in *.
    + reflexivity.
    + rewrite ascii_only_group in Hat.
      replace (P ++ "(" ++ u ++ ")") with (P ++ "(" ++ u ++ ")" ++ "")
        by (rewrite sapp_nil_r; reflexivity).
      rewrite cut_group; [reflexivity|].
      rewrite !ascii_only_app, HP, Hat. reflexivity.
  - cbn [map] in *. rewrite !concat_cons2, piece_records_cons.
    rewrite rev_app_distr, cut_segments_app.
    set (P' := P ++ piece_text t ++ ",").
    assert (LP : len P' = (len P + len (piece_text t) + 1)%nat)
      by (unfold P'; rewrite !len_app; cbn [len String.length]; lia).
    assert (HP' : ascii_only P' = true)
      by (unfold P'; rewrite !ascii_only_app, HP, Hat; reflexivity).
    replace (P ++ piece_text t ++ "," ++ String.concat "," (piece_text t2 :: map piece_text ts'))
      with (P' ++ String.concat "," (piece_text t2 :: map piece_text ts'))
      by (unfold P'; rewrite !sapp_assoc; reflexivity).
    rewrite <- LP, IH by assumption. cbn [bind].
    assert (HS := ascii_only_stripped _ Hts). cbn [map] in HS.
    set (S' := String.concat "," (stripped t2 :: map stripped ts')) in *.
    unfold P'.
    destruct t as [p|u]; cbn [piece_record stripped piece_text rev app] in *.
    + rewrite !sapp_assoc. reflexivity.
    + rewrite ascii_only_group in Hat. rewrite !sapp_assoc.
      rewrite cut_group; [reflexivity|].
      rewrite !ascii_only_app, HP, Hat, HS. reflexivity.
Qed.

Lemma split_comma_free (x : string) :
  forallb (fun a => negb (Ascii.eqb a ",")) (list_ascii_of_string x) = true ->
  split_comma x = [x].
Proof.
  induction x as [|a x IH]; intros H; [reflexivity|].
  cbn [list_ascii_of_string forallb] in H. apply andb_true_iff in H as [Ha H].
  apply negb_true_iff in Ha. cbn [split_comma]. rewrite Ha, IH by exact H. reflexivity.
Qed.

Lemma split_comma_sep (x y : string) :
  forallb (fun a => negb (Ascii.eqb a ",")) (list_ascii_of_string x) = true ->
  split_comma (x ++ "," ++ y) = x :: split_comma y.
Proof.
  induction x as [|a x IH]; intros H; [reflexivity|].
  cbn [list_ascii_of_string forallb] in H. apply andb_true_iff in H as [Ha H].
  apply negb_true_iff in Ha.
  change (String a x ++ "," ++ y) with (String a (x ++ "," ++ y)).
  cbn [split_comma]. rewrite Ha, IH by exact H. reflexivity.
Qed.

Lemma split_concat (xs : list string) :
  xs <> [] ->
  Forall (fun x => forallb (fun a => negb (Ascii.eqb a ",")) (list_ascii_of_string x) = true) xs ->
  split_comma (String.concat "," xs) = xs.
Proof.
  induction xs as [|x xs IH]; intros Hn H; [congruence|].
  inversion H as [|? ? Hx Hxs]; subst. destruct xs as [|y xs].
  - apply split_comma_free. exact Hx.
  - rewrite concat_cons2, split_comma_sep by exact Hx. rewrite IH; auto. discriminate.
Qed.

Lemma stripped_comma_free (ts : list piece) :
  Forall piece_wf ts ->
  Forall (fun x => forallb (fun a => negb (Ascii.eqb a ",")) (list_ascii_of_string x) = true)
    (map stripped ts).
Proof.
  intros H. apply Forall_map. eapply Forall_impl; [|exact H].
  intros [p|u] [_ Hw]; [|reflexivity]. cbn [stripped]. destruct Hw as [_ Hw].
  apply forallb_forall. intros a Ha. eapply forallb_forall in Hw; [|exact Ha].
  destruct (Ascii.eqb a ","); [discriminate Hw | reflexivity].
Qed.

Lemma put_back_cons (t : piece) (rest : list string) (s P Z : string) R0 R1 tl :
  piece_wf t -> s = P ++ piece_text t ++ Z -> ascii_only s = true ->
  put_back s ((R0 ++ piece_record t (len P)) ++ R1) rest
    (length (R0 ++ piece_record t (len P))) = Ok tl ->
  put_back s (R0 ++ piece_record t (len P) ++ R1) (stripped t :: rest) (length R0)
  = Ok (piece_text t :: tl).
Proof.
  intros [Hat Hw] Es Hs Hrest.
  destruct t as [p|u]; cbn [piece_record stripped piece_text] in *.
  - destruct Hw as [Hne _]. rewrite app_nil_r in Hrest. cbn [app].
    cbn [put_back]. apply String.eqb_neq in Hne. rewrite Hne, Hrest. reflexivity.
  - cbn [put_back]. change (String.eqb "" "") with true. cbv iota.
    rewrite nth_error_app2, Nat.sub_diag by lia. cbn [nth_error app left right].
    rewrite <- app_assoc, length_app in Hrest. cbn [length app] in Hrest.
    rewrite (Nat.add_1_r (length R0)) in Hrest.
    assert (L : len s = (len P + S (len u + S (len Z)))%nat)
      by (subst s; rewrite !len_app; cbn [len String.length]; lia).
    rewrite slice_ascii by (auto; lia). cbn [bind].
    match goal with
    | |- context [substring (len P) ?n _] =>
        replace n with (len ("(" ++ u ++ ")")) by (rewrite !len_app; cbn [len String.length]; lia)
    end.
    assert (Hsub : substring (len P) (len ("(" ++ u ++ ")")) s = "(" ++ u ++ ")")
      by (rewrite Es; apply substring_mid).
    rewrite Hsub, Hrest. reflexivity.
Qed.

Lemma put_back_pieces (ts : list piece) :
  Forall piece_wf ts -> forall P Q R0 R1,
  ascii_only (P ++ String.concat "," (map piece_text ts) ++ Q) = true ->
  put_back (P ++ String.concat "," (map piece_text ts) ++ Q)
    (R0 ++ piece_records ts (len P) ++ R1) (map stripped ts) (length R0)
  = Ok (map piece_text ts).
Proof.
  induction ts as [|t ts IH]; intros Hf P Q R0 R1 Ha; [reflexivity|].
  inversion Hf as [|? ? Ht Hts]; subst.
  destruct ts as [|t2 ts'].
  - cbn [map String.concat piece_records]. rewrite app_nil_r.
    apply (put_back_cons t [] _ P Q); auto.
  - rewrite piece_records_cons, <- app_assoc. cbn [map] in Ha |- *.
    rewrite concat_cons2 in Ha |- *.
    apply (put_back_cons t _ _ P
             ("," ++ String.concat "," (piece_text t2 :: map piece_text ts') ++ Q)); auto.
    { rewrite !sapp_assoc. reflexivity. }
    replace (P ++ (piece_text t ++ "," ++ String.concat "," (piece_text t2 :: map piece_text ts')) ++ Q)
      with ((P ++ piece_text t ++ ",") ++ String.concat "," (piece_text t2 :: map piece_text ts') ++ Q)
      in Ha |- * by (rewrite !sapp_assoc; reflexivity).
    replace (len P + len (piece_text t) + 1)%nat with (len (P ++ piece_text t ++ ","))
      by (rewrite !len_app; cbn [len String.length]; lia).
    apply (IH Hts). exact Ha.
Qed.

Lemma list_ascii_app (a b : string) :
  list_ascii_of_string (a ++ b) = (list_ascii_of_string a ++ list_ascii_of_string b)%list.
Proof. induction a as [|x a IH]; cbn; congruence. Qed.

Lemma string_last (s : string) :
  s <> "" -> exists A c, s = A ++ String c "".
Proof.
  induction s as [|x s IH]; intros H; [congruence|].
  destruct s as [|y s].
  - exists "", x. reflexivity.
  - destruct IH as [A [c E]]; [discriminate|].
    exists (String x A), c. rewrite E. reflexivity.
Qed.

Lemma ends_with_comma_last (A : string) (c : ascii) :
  ends_with "," (A ++ String c "") = Ascii.eqb c ",".
Proof.
  unfold ends_with. rewrite len_app. cbn [len String.length].
  replace (len A + 1 - 1)%nat with (len A) by lia.
  replace (1 <=? len A + 1)%nat with true by (symmetry; apply Nat.leb_le; lia).
  replace (A ++ String c "") with (A ++ String c "" ++ "") by (rewrite sapp_nil_r; reflexivity).
  change 1%nat with (len (String c "")). rewrite substring_mid.
  cbn [andb]. destruct (Ascii.eqb c ",") eqn:E.
  - apply Ascii.eqb_eq in E. subst. reflexivity.
  - apply String.eqb_neq. intros H. injection H as H. subst. rewrite Ascii.eqb_refl in E.
    discriminate.
Qed.

Lemma piece_last (t : piece) :
  piece_wf t -> exists A c, piece_text t = A ++ String c "" /\ Ascii.eqb c "," = false.
Proof.
  intros [_ Hw]. destruct t as [p|u]; cbn [piece_text].
  - destruct Hw as [Hn Hw]. destruct (string_last p Hn) as [A [c E]].
    exists A, c. split; [exact E|]. subst p.
    rewrite list_ascii_app, forallb_app in Hw. apply andb_true_iff in Hw as [_ Hw].
    cbn [list_ascii_of_string forallb] in Hw.
    destruct (Ascii.eqb c ","); [discriminate Hw | reflexivity].
  - exists ("(" ++ u), ")"%char. split; [rewrite sapp_assoc; reflexivity | reflexivity].
Qed.

Lemma piece_head (t : piece) :
  piece_wf t -> exists c B, piece_text t = String c B /\ Ascii.eqb c "," = false.
Proof.
  intros [_ Hw]. destruct t as [p|u]; cbn [piece_text].
  - destruct Hw as [Hn Hw]. destruct p as [|c B]; [congruence|].
    exists c, B. split; [reflexivity|].
    cbn [list_ascii_of_string forallb] in Hw.
    destruct (Ascii.eqb c ","); [discriminate Hw | reflexivity].
  - exists "("%char, (u ++ ")"). split; reflexivity.
Qed.

Lemma concat_last (ts : list piece) :
  ts <> [] -> Forall piece_wf ts ->
  exists A c, String.concat "," (map piece_text ts) = A ++ String c "" /\ Ascii.eqb c "," = false.
Proof.
  induction ts as [|t ts IH]; intros Hn Hf; [congruence|].
  inversion Hf as [|? ? Ht Hts]; subst. destruct ts as [|t2 ts'].
  - apply piece_last. exact Ht.
  - destruct IH as [A [c [E Hc]]]; [discriminate | exact Hts |].
    exists (piece_text t ++ "," ++ A), c. split; [|exact Hc].
    cbn [map] in *. rewrite concat_cons2, E, !sapp_assoc. reflexivity.
Qed.

Lemma concat_head (ts : list piece) :
  ts <> [] -> Forall piece_wf ts ->
  exists c B, String.concat "," (map piece_text ts) = String c B /\ Ascii.eqb c "," = false.
Proof.
  intros Hn Hf. destruct ts as [|t ts]; [congruence|].
  inversion Hf as [|? ? Ht Hts]; subst.
  destruct (piece_head t Ht) as [c [B [E Hc]]].
  destruct ts as [|t2 ts'].
  - exists c, B. split; [exact E | exact Hc].
  - exists c, (B ++ "," ++ String.concat "," (map piece_text (t2 :: ts'))).
    split; [|exact Hc]. cbn [map]. rewrite concat_cons2, E. reflexivity.
Qed.

Lemma starts_with_comma_head (c : ascii) (B : string) :
  Ascii.eqb c "," = false -> starts_with "," (String c B) = false.
Proof.
  intros Hc. unfold starts_with. cbn [String.prefix].
  destruct (ascii_dec "," c) as [E|E]; [subst; rewrite Ascii.eqb_refl in Hc; discriminate|].
  reflexivity.
Qed.

Lemma split_pieces (ts : list piece) :
  ts <> [] -> Forall piece_wf ts ->
  contains ",," (String.concat "," (map piece_text ts)) = false ->
  parse_tuple_content (String.concat "," (map piece_text ts)) = Ok (map piece_text ts).
Proof.
  intros Hn Hf Hc.
  destruct (concat_head ts Hn Hf) as [c [B [Eh Hh]]].
  destruct (concat_last ts Hn Hf) as [A [d [El Hl]]].
  unfold parse_tuple_content.
  replace (String.eqb (String.concat "," (map piece_text ts)) "") with false
    by (rewrite Eh; reflexivity).
  replace (ends_with "," (String.concat "," (map piece_text ts))) with false
    by (rewrite El, ends_with_comma_last, Hl; reflexivity).
  replace (starts_with "," (String.concat "," (map piece_text ts))) with false
    by (rewrite Eh, starts_with_comma_head by exact Hh; reflexivity).
  rewrite Hc. cbn [orb].
  rewrite scan_pieces by exact Hf. cbn [app].
  pose proof (cut_pieces ts Hf "" eq_refl) as Hcut. cbn [len String.length String.append] in Hcut.
  rewrite Hcut. cbn [bind].
  rewrite split_concat; [| |apply stripped_comma_free; exact Hf].
  2:{ destruct ts; [congruence | discriminate]. }
  pose proof (put_back_pieces ts Hf "" "" [] []) as Hpb.
  rewrite !sapp_nil_r, app_nil_r in Hpb. cbn [len String.length String.append length app] in Hpb.
  apply Hpb. apply ascii_only_texts. exact Hf.
Qed.

(** Splitter contract on well-formed input.  When the inner text is a
    comma-separated list of pieces, each either a nonempty run of ASCII
    characters other than comma and parentheses, or one parenthesised group
    whose inside is ASCII with matched parentheses, and the text holds no
    doubled comma, [parse_tuple_content] returns exactly those pieces in
    order; the empty text gives the empty list. *)
Theorem parse_tuple_content_pieces (ts : list piece) :
  ts <> [] -> Forall piece_wf ts ->
  contains ",," (String.concat "," (map piece_text ts)) = false ->
  parse_tuple_content (String.concat "," (map piece_text ts)) = Ok (map piece_text ts) /\
  parse_tuple_content "" = Ok [].
Proof.
  intros Hn Hf Hc. split; [apply split_pieces; assumption | reflexivity].
Qed.

Lemma parse_tuple_content_pieces_witness :
  ([Plain "uint32"; Group "uint32,uint32"; Plain "bool"] <> [] /\
   Forall piece_wf [Plain "uint32"; Group "uint32,uint32"; Plain "bool"] /\
   contains ",," (String.concat "," (map piece_text
     [Plain "uint32"; Group "uint32,uint32"; Plain "bool"])) = false) /\
  (parse_tuple_content (String.concat "," (map piece_text
     [Plain "uint32"; Group "uint32,uint32"; Plain "bool"]))
   = Ok (map piece_text [Plain "uint32"; Group "uint32,uint32"; Plain "bool"]) /\
   parse_tuple_content "" = Ok []).
Proof.
  assert (H : [Plain "uint32"; Group "uint32,uint32"; Plain "bool"] <> [] /\
   Forall piece_wf [Plain "uint32"; Group "uint32,uint32"; Plain "bool"] /\
   contains ",," (String.concat "," (map piece_text
     [Plain "uint32"; Group "uint32,uint32"; Plain "bool"])) = false).
  { split; [discriminate|]. split; [|vm_compute; reflexivity].
    repeat constructor; try discriminate. }
  split; [exact H|].
  destruct H as [H1 [H2 H3]]. exact (parse_tuple_content_pieces _ H1 H2 H3).
Defined.

(** C7.  The splitter keeps the claim's example and the empty case, but a
    top-level segment that starts with a parenthesised group and goes on
    with more text, such as the dynamic array of tuples [(uint8)[]], loses
    its group: [(uint8)[],bool] splits into the pieces [ [] ] and [bool], and
    the valid ABI type [((uint8)[],bool)] is rejected by the type parser. *)
Theorem splitter_drops_tuple_array_segment :
  parse_tuple_content "uint32,(uint32,uint32),bool"
    = Ok ["uint32"; "(uint32,uint32)"; "bool"] /\
  parse_tuple_content "" = Ok [] /\
  parse_tuple_content "(uint8)[],bool" = Ok ["[]"; "bool"] /\
  exists e, parse "((uint8)[],bool)" = Err e.
Proof.
  split; [vm_compute; reflexivity|].
  split; [reflexivity|].
  split; [vm_compute; reflexivity|].
  eexists. vm_compute. reflexivity.
Qed.

(** ** Further properties of the type codec and the method model *)

Lemma bind_ok {A B : Type} (m : outcome A) (k : A -> outcome B) (b : B) :
  bind m k = Ok b -> exists a, m = Ok a /\ k a = Ok b.
Proof. destruct m as [a| |]; cbn; intros H; [eauto | discriminate | discriminate]. Qed.

Lemma parse_int_range (sg : bool) (lo hi : Z) (s : string) (v : Z) :
  parse_int sg lo hi s = Some v -> lo <= v <= hi.
Proof.
  unfold parse_int, in_range. destruct s as [|a r]; [discriminate|].
  repeat match goal with
  | |- context [if ?b then _ else _] => destruct b eqn:?
  | |- context [match ?m with Some _ => _ | None => _ end] => destruct m eqn:?
  end; intros H; try discriminate; injection H as <-;
  repeat match goal with H : (_ && _) = true |- _ => apply andb_true_iff in H as [? ?] end;
  lia.
Qed.

Lemma make_uint_type_wf (n : Z) (t : AbiType) :
  make_uint_type n = Ok t -> wf_type t = true.
Proof.
  unfold make_uint_type. destruct (_ || _ || _) eqn:E; intros H; [discriminate|].
  injection H as <-. cbn. unfold valid_bit_size.
  rewrite !orb_false_iff in E. destruct E as [[E1 E2] E3].
  apply negb_false_iff in E1. rewrite E1. cbn.
  apply Z.ltb_ge in E2. apply Z.ltb_ge in E3.
  apply andb_true_iff; split; apply Z.leb_le; lia.
Qed.

Lemma make_ufixed_type_wf (a b : Z) (t : AbiType) :
  make_ufixed_type a b = Ok t -> wf_type t = true.
Proof.
  unfold make_ufixed_type.
  destruct (_ || _) eqn:E; [discriminate|].
  destruct (negb ((1 <=? b) && (b <=? 160))) eqn:F; [discriminate|].
  intros H. injection H as <-. cbn. unfold valid_bit_size.
  rewrite !orb_false_iff in E. destruct E as [E1 E2].
  apply negb_false_iff in E1, E2, F.
  apply andb_true_iff in E2 as [E2 E2']. apply andb_true_iff in F as [F F'].
  rewrite E1, E2, E2', F, F'. reflexivity.
Qed.

Lemma make_tuple_type_wf (l : list AbiType) (t : AbiType) :
  Forall (fun c => wf_type c = true) l -> make_tuple_type l = Ok t -> wf_type t = true.
Proof.
  intros Hl. unfold make_tuple_type. destruct (65535 <=? _) eqn:E; intros H; [discriminate|].
  injection H as <-. cbn. rewrite Z.eqb_refl. apply Z.leb_gt in E.
  replace (Z.of_nat (length l) <? 65535) with true by (symmetry; apply Z.ltb_lt; lia).
  cbn. apply forallb_forall. intros x Hx. rewrite Forall_forall in Hl. auto.
Qed.

Lemma parse_all_wf (p : string -> outcome AbiType) :
  (forall s t, p s = Ok t -> wf_type t = true) ->
  forall l ts, parse_all p l = Ok ts -> Forall (fun c => wf_type c = true) ts.
Proof.
  intros Hp l. induction l as [|x l IH]; intros ts H.
  - injection H as <-. constructor.
  - cbn [parse_all] in H. apply bind_ok in H as [a [Ha H]].
    apply bind_ok in H as [r [Hr H]]. injection H as <-.
    constructor; [exact (Hp _ _ Ha) | exact (IH _ Hr)].
Qed.

Lemma from_str_fuel_wf (fuel : nat) :
  forall s t, from_str_fuel fuel s = Ok t -> wf_type t = true.
Proof.
  induction fuel as [|fuel IH]; intros s t H; [discriminate|].
  cbn [from_str_fuel] in H.
  destruct (strip_suffix "[]" s) as [st|].
  { apply bind_ok in H as [a [Ha H]]. injection H as <-. cbn. exact (IH _ _ Ha). }
  destruct (ends_with "]" s).
  { destruct (date_re_captures s) as [caps|]; [|discriminate].
    destruct (negb _); [discriminate|].
    destruct (nth_error caps 1) as [c1|], (nth_error caps 2) as [ls|]; try discriminate.
    apply bind_ok in H as [a [Ha H]].
    destruct (parse_usize ls) as [n|] eqn:En; [|discriminate].
    destruct (n <=? 65535) eqn:Eb; [|discriminate].
    injection H as <-. apply parse_int_range in En. cbn.
    rewrite (IH _ _ Ha), Eb. replace (0 <=? n) with true by (symmetry; apply Z.leb_le; lia).
    reflexivity. }
  destruct (strip_prefix "uint" s) as [st|].
  { destruct (parse_i32 st); [|discriminate]. exact (make_uint_type_wf _ _ H). }
  destruct (String.eqb s "byte"). { injection H as <-. reflexivity. }
  destruct (starts_with "ufixed" s).
  { destruct (ufixed_re_captures s) as [caps|]; [|discriminate].
    destruct (negb _); [discriminate|].
    destruct (nth_error caps 1) as [c1|], (nth_error caps 2) as [c2|]; try discriminate.
    destruct (parse_u32 c1); [|discriminate].
    destruct (parse_u32 c2); [|discriminate].
    exact (make_ufixed_type_wf _ _ _ H). }
  destruct (String.eqb s "bool"). { injection H as <-. reflexivity. }
  destruct (String.eqb s "address"). { injection H as <-. reflexivity. }
  destruct (String.eqb s "string"). { injection H as <-. reflexivity. }
  destruct (_ && _ && _); [|discriminate].
  apply bind_ok in H as [inner [_ H]].
  apply bind_ok in H as [content [_ H]].
  apply bind_ok in H as [tys [Htys H]].
  exact (make_tuple_type_wf _ _ (parse_all_wf _ IH _ _ Htys) H).
Qed.

(** X2.  Every type the parser returns has the shape the constructors of
    abi_type.rs build ([wf_type]): uint and ufixed bit sizes are multiples of
    8 in [8, 512], ufixed precisions are in [1, 160], arrays have one element
    type, static lengths fit in a [u16], and a tuple records its arity,
    below [u16::MAX], in [static_length]. *)
Theorem parse_wf (s : string) (t : AbiType) :
  parse s = Ok t -> wf_type t = true.
Proof. apply from_str_fuel_wf. Qed.

Lemma parse_wf_witness :
  parse "(uint64,byte[],string)" =
    Ok (mkAbiType TUPLE
          [mkAbiType UINT [] (Some 64) None None;
           mkAbiType ARRAY_DYNAMIC [mkAbiType BYTE [] None None None] None None None;
           mkAbiType STRING [] None None None] None None (Some 3)) /\
  wf_type (mkAbiType TUPLE
          [mkAbiType UINT [] (Some 64) None None;
           mkAbiType ARRAY_DYNAMIC [mkAbiType BYTE [] None None None] None None None;
           mkAbiType STRING [] None None None] None None (Some 3)) = true.
Proof.
  assert (H : parse "(uint64,byte[],string)" =
    Ok (mkAbiType TUPLE
          [mkAbiType UINT [] (Some 64) None None;
           mkAbiType ARRAY_DYNAMIC [mkAbiType BYTE [] None None None] None None None;
           mkAbiType STRING [] None None None] None None (Some 3))) by (vm_compute; reflexivity).
  split; [exact H | exact (parse_wf _ _ H)].
Defined.

Lemma uint_check_all : forallb uint_check uint_sizes = true.
Proof. vm_compute. reflexivity. Qed.

Lemma valid_bit_size_in (b : Z) : valid_bit_size b = true -> In b uint_sizes.
Proof.
  unfold valid_bit_size. intros H.
  apply andb_true_iff in H as [H H3]. apply andb_true_iff in H as [H1 H2].
  apply Z.eqb_eq in H1. apply Z.leb_le in H2, H3.
  rewrite Z.rem_mod_nonneg in H1 by lia.
  pose proof (Z.div_mod b 8 ltac:(lia)) as Hd. rewrite H1, Z.add_0_r in Hd.
  unfold uint_sizes. apply in_map_iff. exists (Z.to_nat (b / 8)). split.
  - rewrite Z2Nat.id by lia. lia.
  - apply in_seq. lia.
Qed.

Lemma make_uint_type_valid (b : Z) :
  valid_bit_size b = true -> make_uint_type b = Ok (mkAbiType UINT [] (Some b) None None).
Proof.
  unfold valid_bit_size, make_uint_type. intros H.
  apply andb_true_iff in H as [H H3]. apply andb_true_iff in H as [H1 H2].
  rewrite H1. apply Z.leb_le in H2, H3.
  replace (b <? 8) with false by (symmetry; apply Z.ltb_ge; lia).
  replace (512 <? b) with false by (symmetry; apply Z.ltb_ge; lia).
  reflexivity.
Qed.

Lemma uint_text (b : Z) :
  valid_bit_size b = true ->
  piece_wf (Plain ("uint" ++ fmt_uint b)) /\
  forall f, from_str_fuel (S f) ("uint" ++ fmt_uint b) = Ok (mkAbiType UINT [] (Some b) None None).
Proof.
  intros Hv. pose proof (valid_bit_size_in b Hv) as Hin.
  pose proof uint_check_all as Hall. rewrite forallb_forall in Hall.
  specialize (Hall b Hin). unfold uint_check in Hall.
  set (s := "uint" ++ fmt_uint b) in *.
  repeat match goal with H : (_ && _) = true |- _ => apply andb_true_iff in H as [? ?] end.
  split.
  - split; [assumption|]. split; [|assumption].
    intros E. rewrite E in *. discriminate.
  - intros f. cbn [from_str_fuel].
    destruct (strip_suffix "[]" s); [discriminate|].
    destruct (ends_with "]" s); [discriminate|].
    destruct (strip_prefix "uint" s) as [st|]; [|discriminate].
    destruct (parse_i32 st) as [n|]; [|discriminate].
    match goal with H : (n =? b) = true |- _ => apply Z.eqb_eq in H; subst n end.
    apply make_uint_type_valid. exact Hv.
Qed.

Lemma ends_with_app (x p : string) : ends_with p (x ++ p) = true.
Proof.
  unfold ends_with. rewrite len_app.
  replace (len p <=? len x + len p)%nat with true by (symmetry; apply Nat.leb_le; lia).
  replace (len x + len p - len p)%nat with (len x) by lia.
  replace (x ++ p) with (x ++ p ++ "") by (rewrite sapp_nil_r; reflexivity).
  rewrite substring_mid. apply String.eqb_refl.
Qed.

Lemma strip_suffix_app (x p : string) : strip_suffix p (x ++ p) = Some x.
Proof.
  unfold strip_suffix. rewrite ends_with_app, len_app.
  replace (len x + len p - len p)%nat with (len x) by lia.
  rewrite substring_prefix. reflexivity.
Qed.

Lemma no_sep_chars_app (a b : string) :
  no_sep_chars (a ++ b) = no_sep_chars a && no_sep_chars b.
Proof. unfold no_sep_chars. rewrite list_ascii_app, forallb_app. reflexivity. Qed.

Lemma simple_type_text (t : AbiType) :
  simple_type t = true ->
  exists s, string_of t = Ok s /\ piece_wf (Plain s) /\
    forall f, (len s < f)%nat -> from_str_fuel f s = Ok t.
Proof.
  induction t as [id ch bs pr sl IHch] using AbiType_ind_deep. intros Hs.
  cbn [simple_type] in Hs.
  destruct (id =? UINT) eqn:E0.
  { apply Z.eqb_eq in E0. subst id.
    destruct bs as [b|], pr, sl, ch; try discriminate.
    destruct (uint_text b Hs) as [Hw Hp].
    exists ("uint" ++ fmt_uint b). split; [reflexivity|]. split; [exact Hw|].
    intros [|f] Hf; [cbn in Hf; lia | apply Hp]. }
  destruct ((id =? BYTE) || (id =? BOOL) || (id =? STRING)) eqn:E1.
  { destruct bs, pr, sl, ch; try discriminate.
    rewrite !orb_true_iff in E1. destruct E1 as [[E1|E1]|E1]; apply Z.eqb_eq in E1; subst id;
    [exists "byte" | exists "bool" | exists "string"];
    (split; [reflexivity|]); (split; [split; [reflexivity | split; [discriminate | reflexivity]]|]);
    intros [|f] Hf; try (cbn in Hf; lia); reflexivity. }
  destruct (id =? ARRAY_DYNAMIC) eqn:E2; [|discriminate].
  apply Z.eqb_eq in E2. subst id.
  destruct bs, pr, sl, ch as [|c [|]]; try discriminate.
  inversion IHch as [|? ? IHc _]; subst.
  destruct (IHc Hs) as [x [Hx [Hw Hp]]].
  exists (x ++ "[]"). split; [cbn; rewrite Hx; reflexivity|]. split.
  - destruct Hw as [Ha [Hn Hc]]. split; [|split].
    + cbn [piece_text] in *. rewrite ascii_only_app, Ha. reflexivity.
    + destruct x; discriminate.
    + fold (no_sep_chars (x ++ "[]")). rewrite no_sep_chars_app. unfold no_sep_chars.
      rewrite Hc. reflexivity.
  - intros [|f] Hf; [cbn in Hf; lia|]. cbn [from_str_fuel].
    rewrite strip_suffix_app. rewrite Hp; [reflexivity|].
    rewrite len_app in Hf. cbn [len String.length] in Hf. lia.
Qed.

(** X3.  Serialising a uint, byte, bool or string type, or a dynamic array of
    these (nested to any depth), succeeds, and parsing the text gives the
    type back. *)
Theorem simple_type_roundtrip (t : AbiType) :
  simple_type t = true -> exists s, string_of t = Ok s /\ parse s = Ok t.
Proof.
  intros H. destruct (simple_type_text t H) as [s [Hs [_ Hp]]].
  exists s. split; [exact Hs | apply Hp; lia].
Qed.

Lemma prefix_app (p t : string) : String.prefix p t = true -> exists B, t = p ++ B.
Proof.
  revert t. induction p as [|a p IH]; intros t H; [exists t; reflexivity|].
  destruct t as [|b t]; [discriminate|]. cbn in H.
  destruct (ascii_dec a b) as [<-|]; [|discriminate].
  destruct (IH t H) as [B ->]. exists B. reflexivity.
Qed.

Lemma contains_split (p s : string) :
  p <> "" -> contains p s = true -> exists A B, s = A ++ p ++ B.
Proof.
  intros Hp. unfold contains. induction s as [|b s IH]; intros H.
  - destruct p; [congruence | discriminate].
  - cbn [String.index] in H. destruct (String.prefix p (String b s)) eqn:E.
    + destruct (prefix_app _ _ E) as [B HB]. exists "", B. exact HB.
    + destruct (String.index 0 p s) eqn:E2; [|discriminate].
      destruct IH as [A [B ->]]; [reflexivity|]. exists (String b A), B. reflexivity.
Qed.

Lemma split_comma_mid (A C : string) :
  exists l, l <> [] /\ split_comma (A ++ "," ++ C) = (l ++ split_comma C)%list.
Proof.
  induction A as [|a A IH].
  - exists [""]. split; [discriminate | reflexivity].
  - destruct IH as [l [Hl E]].
    change (String a A ++ "," ++ C) with (String a (A ++ "," ++ C)). cbn [split_comma].
    destruct (Ascii.eqb a ",").
    + exists ("" :: l). split; [discriminate|]. rewrite E. reflexivity.
    + destruct l as [|x l]; [congruence|]. rewrite E. cbn [app].
      exists (String a x :: l). split; [discriminate | reflexivity].
Qed.

Lemma comma_free_of_sep (x : string) :
  no_sep_chars x = true ->
  forallb (fun a => negb (Ascii.eqb a ",")) (list_ascii_of_string x) = true.
Proof.
  unfold no_sep_chars. intros H. apply forallb_forall. intros a Ha.
  eapply forallb_forall in H; [|exact Ha].
  destruct (Ascii.eqb a ","); [discriminate H | reflexivity].
Qed.

Lemma no_double_comma (xs : list string) :
  xs <> [] -> Forall (fun x => x <> "" /\ no_sep_chars x = true) xs ->
  contains ",," (String.concat "," xs) = false.
Proof.
  intros Hn Hf. destruct (contains ",," (String.concat "," xs)) eqn:E; [exfalso|reflexivity].
  assert (Hne : ",," <> "") by discriminate.
  destruct (contains_split _ _ Hne E) as [A [B Hs]].
  assert (Hsp : split_comma (String.concat "," xs) = xs).
  { apply split_concat; [exact Hn|]. eapply Forall_impl; [|exact Hf].
    intros x [_ Hx]. apply comma_free_of_sep. exact Hx. }
  rewrite Hs in Hsp. change (A ++ ",," ++ B) with (A ++ "," ++ ("," ++ B)) in Hsp.
  destruct (split_comma_mid A ("," ++ B)) as [l [_ El]]. rewrite El in Hsp.
  change (split_comma ("," ++ B)) with ("" :: split_comma B) in Hsp.
  assert (Hin : In "" xs) by (rewrite <- Hsp; apply in_or_app; right; left; reflexivity).
  rewrite Forall_forall in Hf. destruct (Hf _ Hin) as [H0 _]. congruence.
Qed.

Lemma len_in_concat (xs : list string) (x : string) :
  In x xs -> (len x <= len (String.concat "," xs))%nat.
Proof.
  induction xs as [|y xs IH]; intros H; [destruct H|].
  destruct xs as [|z xs].
  - destruct H as [<-|[]]. apply Nat.le_refl.
  - rewrite concat_cons2, !len_app. destruct H as [<-|H]; [lia|].
    specialize (IH H). lia.
Qed.

Lemma substring_full (s : string) : substring 0 (len s) s = s.
Proof. rewrite <- (sapp_nil_r s) at 2. rewrite <- substring_prefix with (b := ""). rewrite sapp_nil_r. reflexivity. Qed.

Lemma substring_split0 (s : string) (k : nat) :
  (k <= len s)%nat -> s = substring 0 k s ++ substring k (len s - k) s.
Proof.
  revert k. induction s as [|a s IH]; intros k Hk.
  - cbn in Hk. assert (k = 0%nat) by lia. subst. reflexivity.
  - destruct k as [|k].
    + rewrite Nat.sub_0_r, substring_full. destruct s; reflexivity.
    + cbn. f_equal. apply IH. cbn in Hk. unfold len. lia.
Qed.

Lemma prefix_empty (s : string) : String.prefix "" s = true.
Proof. destruct s; reflexivity. Qed.

Lemma ends_with_split (p s : string) :
  ends_with p s = true -> s = substring 0 (len s - len p) s ++ p.
Proof.
  unfold ends_with. intros H. apply andb_true_iff in H as [H1 H2].
  apply Nat.leb_le in H1. apply String.eqb_eq in H2.
  rewrite (substring_split0 s (len s - len p)) at 1 by lia.
  replace (len s - (len s - len p))%nat with (len p) by lia. rewrite H2. reflexivity.
Qed.

Lemma app_last_inj (A B : string) (c d : ascii) :
  A ++ String c "" = B ++ String d "" -> c = d.
Proof.
  revert B. induction A as [|a A IH]; intros B H.
  - destruct B as [|b [|b' B]]; cbn in H; try congruence.
  - destruct B as [|b B]; cbn in H.
    + injection H as _ H. destruct A; discriminate.
    + injection H as _ H. exact (IH B H).
Qed.

Lemma ends_with_other_last (q A : string) (c d : ascii) :
  c <> d -> ends_with (q ++ String d "") (A ++ String c "") = false.
Proof.
  intros Hcd. destruct (ends_with _ _) eqn:E; [exfalso|reflexivity].
  apply ends_with_split in E. rewrite <- sapp_assoc in E.
  exact (Hcd (app_last_inj _ _ _ _ E)).
Qed.

Lemma strings_of_simple (ts : list AbiType) :
  Forall (fun t => simple_type t = true) ts ->
  exists strs, strings_of ts = Ok strs /\
    Forall2 (fun t s => piece_wf (Plain s) /\
               forall f, (len s < f)%nat -> from_str_fuel f s = Ok t) ts strs.
Proof.
  induction 1 as [|t ts Ht Hts IH]; [exists []; split; [reflexivity | constructor]|].
  destruct (simple_type_text t Ht) as [s [Hs [Hw Hp]]].
  destruct IH as [strs [Hstrs H2]].
  exists (s :: strs). split; [cbn [strings_of]; rewrite Hs, Hstrs; reflexivity|].
  constructor; [split; assumption | exact H2].
Qed.

Lemma parse_all_fuel (F : nat) (ts : list AbiType) (strs : list string) :
  Forall2 (fun t s => piece_wf (Plain s) /\
             forall f, (len s < f)%nat -> from_str_fuel f s = Ok t) ts strs ->
  (forall s, In s strs -> (len s < F)%nat) ->
  parse_all (from_str_fuel F) strs = Ok ts.
Proof.
  induction 1 as [|t s ts strs [_ Hp] _ IH]; intros HF; [reflexivity|].
  cbn [parse_all]. rewrite Hp by (apply HF; left; reflexivity). cbn [bind].
  rewrite IH by (intros x Hx; apply HF; right; exact Hx). reflexivity.
Qed.

(** X4.  The public [make_tuple_type] of lib.rs, on a nonempty list of fewer
    than [u16::MAX] simple types, returns the tuple of exactly these element
    types with its arity in [static_length]; on the empty list it returns
    the error "tuple must contain at least one type". *)
Theorem lib_make_tuple_type_simple (ts : list AbiType) :
  ts <> [] -> Z.of_nat (length ts) < 65535 -> Forall (fun t => simple_type t = true) ts ->
  lib_make_tuple_type ts = Ok (mkAbiType TUPLE ts None None (Some (Z.of_nat (length ts)))) /\
  lib_make_tuple_type [] = Err (Msg "tuple must contain at least one type").
Proof.
  intros Hn Hl Hf. split; [|reflexivity].
  unfold lib_make_tuple_type.
  replace (length ts =? 0)%nat with false by (destruct ts; [congruence | reflexivity]).
  replace (65535 <=? Z.of_nat (length ts)) with false by (symmetry; apply Z.leb_gt; lia).
  destruct (strings_of_simple ts Hf) as [strs [Hs H2]]. rewrite Hs. cbn [bind].
  assert (Hpieces : Forall piece_wf (map Plain strs)).
  { apply Forall_map. clear -H2. induction H2 as [|t s ts strs [Hw _] _ IH]; constructor; auto. }
  assert (Htexts : map piece_text (map Plain strs) = strs).
  { rewrite map_map. apply map_id. }
  assert (Hsn : strs <> []).
  { destruct H2; [congruence | discriminate]. }
  set (X := String.concat "," strs).
  assert (HX : ascii_only X = true).
  { unfold X. rewrite <- Htexts. apply ascii_only_texts. exact Hpieces. }
  assert (Hc : contains ",," X = false).
  { apply no_double_comma; [exact Hsn|].
    clear -H2. induction H2 as [|t s ts strs [[_ [Hx Hy]] _] _ IH]; constructor; auto. }
  assert (Hsplit : parse_tuple_content X = Ok strs).
  { pose proof (split_pieces (map Plain strs)) as Hsp. rewrite Htexts in Hsp.
    apply Hsp; [destruct strs; [congruence | discriminate] | exact Hpieces | exact Hc]. }
  set (W := "(" ++ X ++ ")").
  assert (HW : W = ("(" ++ X) ++ String ")" "") by (unfold W; rewrite sapp_assoc; reflexivity).
  assert (HlW : len W = S (len X + 1)) by (unfold W; rewrite !len_app; reflexivity).
  unfold parse. cbn [from_str_fuel].
  replace (strip_suffix "[]" W) with (@None string).
  2:{ unfold strip_suffix. rewrite HW.
      change "[]" with ("[" ++ String "]" "").
      rewrite ends_with_other_last by discriminate. reflexivity. }
  replace (ends_with "]" W) with false.
  2:{ rewrite HW. change "]" with ("" ++ String "]" "").
      rewrite ends_with_other_last by discriminate. reflexivity. }
  change (strip_prefix "uint" W) with (@None string).
  change (String.eqb W "byte") with false.
  change (starts_with "ufixed" W) with false.
  change (String.eqb W "bool") with false.
  change (String.eqb W "address") with false.
  change (String.eqb W "string") with false.
  cbv iota.
  replace ((2 <=? len W)%nat && starts_with "(" W && ends_with ")" W) with true.
  2:{ rewrite HlW, Nat.add_1_r. rewrite HW at 2.
      rewrite ends_with_app. unfold W. cbn. rewrite prefix_empty. reflexivity. }
  rewrite slice_ascii; [| unfold W; rewrite !ascii_only_app, HX; reflexivity | lia | lia].
  cbn [bind].
  replace (substring 1 (len W - 1 - 1) W) with X.
  2:{ rewrite HlW. replace (S (len X + 1) - 1 - 1)%nat with (len X) by lia.
      unfold W. change 1%nat with (len "(" + 0)%nat. rewrite substring_app_r.
      rewrite substring_prefix. reflexivity. }
  rewrite Hsplit. cbn [bind].
  rewrite (parse_all_fuel (len W) ts strs H2).
  2:{ intros s Hin. pose proof (len_in_concat strs s Hin). fold X in H. lia. }
  cbn [bind]. unfold make_tuple_type.
  replace (65535 <=? Z.of_nat (length ts)) with false by (symmetry; apply Z.leb_gt; lia).
  reflexivity.
Qed.

(** X5.  Every ASCII text that ends in a closing bracket but not in an empty
    pair of brackets makes the parser panic. *)
Theorem parse_panics_on_bracket_end (s : string) :
  ascii_only s = true -> ends_with "]" s = true -> ends_with "[]" s = false ->
  parse s = Panic.
Proof.
  intros Ha H1 H2. unfold parse. cbn [from_str_fuel].
  unfold strip_suffix at 1. rewrite H2, H1.
  replace (date_re_captures s) with (@None (list string)); [reflexivity|].
  apply ends_with_split in H1.
  set (A := substring 0 (len s - len "]") s) in H1.
  assert (HA : ascii_only A = true).
  { rewrite H1, ascii_only_app in Ha. apply andb_true_iff in Ha as [Ha _]. exact Ha. }
  unfold date_re_captures. rewrite H1, chars_app_ascii by exact HA.
  change (chars "]") with [93].
  destruct (chars A) as [|x1 [|x2 [|x3 [|x4 [|x5 [|x6 [|x7 [|x8 [|x9 [|x10 l]]]]]]]]]];
    cbn [app]; try reflexivity.
  - cbn [forallb]. change (is_digit 93) with false. rewrite !andb_false_r. reflexivity.
  - destruct l; reflexivity.
Qed.

(** X6.  A successful [AbiArg::get_type_object] keeps the raw type, stores the
    returned type in the cache, returns the parse of the raw type when the
    cache was empty, and a second call returns the same type and leaves the
    argument unchanged. *)
Theorem arg_get_type_object_cached (a : AbiArg) (t : AbiType) (a' : AbiArg) :
  arg_get_type_object a = Ok (t, a') ->
  arg_type_ a' = arg_type_ a /\ arg_parsed a' = Some t /\
  (arg_parsed a = None -> parse (arg_type_ a) = Ok t) /\
  arg_get_type_object a' = Ok (t, a').
Proof.
  unfold arg_get_type_object at 1.
  destruct (is_transaction_arg a) eqn:Et; [discriminate|].
  destruct (is_reference_arg a) eqn:Er; [discriminate|].
  destruct (arg_parsed a) as [p|] eqn:Ep.
  - intros H. injection H as <- <-. split; [reflexivity|]. split; [exact Ep|].
    split; [discriminate|]. unfold arg_get_type_object. rewrite Et, Er, Ep. reflexivity.
  - intros H. apply bind_ok in H as [t0 [Hp H]]. injection H as <- <-.
    split; [reflexivity|]. split; [reflexivity|]. split; [intros _; exact Hp|].
    unfold arg_get_type_object, is_transaction_arg, is_reference_arg in *. cbn [arg_type_ arg_parsed].
    rewrite Et, Er. reflexivity.
Qed.

(** X7.  A successful [AbiReturn::get_type_object] keeps the raw type, stores
    the returned type in the cache, returns the parse of the raw type when
    the cache was empty, and a second call returns the same type and leaves
    the return value unchanged. *)
Theorem ret_get_type_object_cached (r : AbiReturn) (t : AbiType) (r' : AbiReturn) :
  ret_get_type_object r = Ok (t, r') ->
  ret_type_ r' = ret_type_ r /\ ret_parsed r' = Some t /\
  (ret_parsed r = None -> parse (ret_type_ r) = Ok t) /\
  ret_get_type_object r' = Ok (t, r').
Proof.
  unfold ret_get_type_object at 1.
  destruct (is_void r) eqn:Ev; [discriminate|].
  destruct (ret_parsed r) as [p|] eqn:Ep.
  - intros H. injection H as <- <-. split; [reflexivity|]. split; [exact Ep|].
    split; [discriminate|]. unfold ret_get_type_object. rewrite Ev, Ep. reflexivity.
  - intros H. apply bind_ok in H as [t0 [Hp H]]. injection H as <- <-.
    split; [reflexivity|]. split; [reflexivity|]. split; [intros _; exact Hp|].
    unfold ret_get_type_object, is_void in *. cbn [ret_type_ ret_parsed].
    rewrite Ev. reflexivity.
Qed.

Lemma build_args_spec (l : list string) (args : list AbiArg) :
  build_args l = Ok args ->
  map arg_type_ args = l /\
  Forall (fun a => arg_name a = None /\ arg_description a = None /\
     (if TransactionArgType_is_valid_str (arg_type_ a) || ReferenceArgType_is_valid_str (arg_type_ a)
      then arg_parsed a = None
      else exists t, parse (arg_type_ a) = Ok t /\ arg_parsed a = Some t)) args.
Proof.
  revert args. induction l as [|x l IH]; intros args H.
  - injection H as <-. split; constructor.
  - cbn [build_args] in H. apply bind_ok in H as [a [Ha H]].
    apply bind_ok in H as [rest [Hr H]]. injection H as <-.
    destruct (IH _ Hr) as [Hm Hf].
    assert (Hax : arg_type_ a = x /\ arg_name a = None /\ arg_description a = None /\
      (if TransactionArgType_is_valid_str (arg_type_ a) || ReferenceArgType_is_valid_str (arg_type_ a)
       then arg_parsed a = None
       else exists t, parse (arg_type_ a) = Ok t /\ arg_parsed a = Some t)).
    { destruct (TransactionArgType_is_valid_str x || ReferenceArgType_is_valid_str x) eqn:Ek.
      - injection Ha as <-. cbn [arg_type_ arg_name arg_description arg_parsed]. rewrite Ek. cbv iota. repeat split.
      - apply bind_ok in Ha as [[t a0] [Hg Ha]]. injection Ha as <-. cbn [snd].
        unfold arg_get_type_object, is_transaction_arg, is_reference_arg in Hg.
        cbn [arg_type_ arg_parsed arg_name arg_description] in Hg.
        apply orb_false_iff in Ek as [E1 E2]. rewrite E1, E2 in Hg.
        apply bind_ok in Hg as [t1 [Hp Hg]]. injection Hg as <- <-.
        cbn [arg_type_ arg_name arg_description arg_parsed].
        rewrite E1, E2. cbn [orb]. cbv iota.
        split; [reflexivity|]. split; [reflexivity|]. split; [reflexivity|]. eauto. }
    destruct Hax as [Hx Hax]. split; [cbn [map]; rewrite Hx, Hm; reflexivity|].
    constructor; assumption.
Qed.

(** X8.  A method built by [from_signature] has a nonempty name and no
    descriptions; its return type cache is empty for [void] and otherwise
    holds the parse of the raw return type; each argument has no name and
    no description, and its cache is empty for a transaction or reference
    keyword and otherwise holds the parse of its raw type. *)
Theorem from_signature_caches (s : string) (m : AbiMethod) :
  from_signature s = Ok m ->
  name m <> "" /\ description m = None /\ ret_description (returns m) = None /\
  (if is_void (returns m) then ret_parsed (returns m) = None
   else exists t, parse (ret_type_ (returns m)) = Ok t /\ ret_parsed (returns m) = Some t) /\
  Forall (fun a => arg_name a = None /\ arg_description a = None /\
     (if TransactionArgType_is_valid_str (arg_type_ a) || ReferenceArgType_is_valid_str (arg_type_ a)
      then arg_parsed a = None
      else exists t, parse (arg_type_ a) = Ok t /\ arg_parsed a = Some t)) (args m).
Proof.
  unfold from_signature. destruct (position 40 (chars s)) as [open_idx|]; [|discriminate].
  intros H. apply bind_ok in H as [nm [_ H]].
  destruct (String.eqb nm "") eqn:En; [discriminate|].
  apply bind_ok in H as [[arg_types close_idx] [_ H]].
  apply bind_ok in H as [ret_ty [_ H]].
  apply bind_ok in H as [rt [Hrt H]].
  apply bind_ok in H as [args0 [Ha H]]. injection H as <-.
  cbn [name description args returns].
  split; [apply String.eqb_neq; exact En|]. split; [reflexivity|].
  destruct (build_args_spec _ _ Ha) as [_ Hf].
  destruct (negb (is_void (mkAbiReturn ret_ty None None))) eqn:Ev.
  - apply bind_ok in Hrt as [[t r0] [Hg Hrt]]. injection Hrt as <-.
    unfold ret_get_type_object in Hg. apply negb_true_iff in Ev. rewrite Ev in Hg.
    cbn [ret_parsed ret_type_ ret_description] in Hg.
    apply bind_ok in Hg as [t1 [Hp Hg]]. injection Hg as <- <-. cbn [snd].
    unfold is_void in *. cbn [ret_type_ ret_description ret_parsed] in *. rewrite Ev.
    split; [reflexivity|]. split; [eauto | exact Hf].
  - injection Hrt as <-. apply negb_false_iff in Ev. rewrite Ev.
    split; [reflexivity|]. split; [reflexivity | exact Hf].
Qed.

Lemma slice_ok (s : string) (a b : nat) (x : string) :
  slice s a b = Ok x -> x = substring a (b - a) s /\ (a <= b)%nat /\ (b <= len s)%nat.
Proof.
  unfold slice. destruct (_ && _ && _ && _) eqn:E; [|discriminate].
  intros H. injection H as <-.
  apply andb_true_iff in E as [E _]. apply andb_true_iff in E as [E _].
  apply andb_true_iff in E as [E1 E2]. apply Nat.leb_le in E1, E2. auto.
Qed.

Lemma position_nth (c : Z) (l : list Z) (i : nat) :
  position c l = Some i -> nth_error l i = Some c.
Proof.
  revert i. induction l as [|x l IH]; intros i H; [discriminate|].
  cbn in H. destruct (x =? c) eqn:E.
  - injection H as <-. apply Z.eqb_eq in E. subst. reflexivity.
  - destruct (position c l) as [j|] eqn:Ej; [|discriminate].
    injection H as <-. apply IH. reflexivity.
Qed.

Lemma nth_chars_ascii (s : string) (i : nat) :
  ascii_only s = true -> nth_error (chars s) i = option_map byte_of (String.get i s).
Proof.
  revert i. induction s as [|a s IH]; intros i H; [destruct i; reflexivity|].
  unfold ascii_only in H. cbn [list_ascii_of_string forallb] in H.
  apply andb_true_iff in H as [Ha H].
  rewrite chars_cons_ascii by exact Ha.
  destruct i as [|i]; [reflexivity|]. cbn [nth_error String.get]. apply IH. exact H.
Qed.

Lemma char_at (s : string) (i : nat) (c : ascii) :
  ascii_only s = true -> nth_error (chars s) i = Some (byte_of c) -> String.get i s = Some c.
Proof.
  intros Ha H. rewrite nth_chars_ascii in H by exact Ha.
  destruct (String.get i s) as [a|]; [|discriminate].
  injection H as H. apply byte_of_inj in H. subst. reflexivity.
Qed.

Lemma get_lt (s : string) (i : nat) (c : ascii) : String.get i s = Some c -> (i < len s)%nat.
Proof.
  revert i. induction s as [|a s IH]; intros i H; [discriminate|].
  destruct i as [|i]; cbn; [lia|]. cbn in H. specialize (IH i H). unfold len in IH. lia.
Qed.

Lemma substring_get (s : string) (i m : nat) (c : ascii) :
  String.get i s = Some c -> substring i (S m) s = String c (substring (S i) m s).
Proof.
  revert i. induction s as [|a s IH]; intros i H; [discriminate|].
  destruct i as [|i].
  - cbn in H. injection H as <-. destruct m; [destruct s|]; reflexivity.
  - cbn in H. cbn [substring]. apply IH. exact H.
Qed.

Lemma substring_add (s : string) (a n m : nat) :
  substring a (n + m) s = substring a n s ++ substring (a + n) m s.
Proof.
  revert a n. induction s as [|x s IH]; intros a n.
  - destruct a, n, m; reflexivity.
  - destruct a as [|a].
    + destruct n as [|n]; [reflexivity|]. cbn [Nat.add substring].
      rewrite (IH 0%nat n). reflexivity.
    + cbn [Nat.add substring]. apply IH.
Qed.

Lemma substring_zero (s : string) (a : nat) : substring a 0 s = "".
Proof. revert a. induction s as [|x s IH]; intros [|a]; cbn; auto. Qed.

Lemma concat_snoc (l : list string) (x : string) :
  String.concat "," (l ++ [x]) = joinc l ++ x.
Proof.
  induction l as [|y l IH]; [reflexivity|].
  destruct l as [|z l].
  - cbn. rewrite sapp_assoc. reflexivity.
  - change ((y :: z :: l) ++ [x])%list with (y :: z :: (l ++ [x]))%list.
    rewrite concat_cons2. change (z :: (l ++ [x]))%list with ((z :: l) ++ [x])%list.
    rewrite IH. unfold joinc. rewrite concat_cons2, !sapp_assoc. reflexivity.
Qed.

Lemma joinc_snoc (l : list string) (x : string) :
  joinc (l ++ [x]) = joinc l ++ x ++ ",".
Proof.
  unfold joinc at 1. destruct (l ++ [x])%list eqn:E; [destruct l; discriminate|].
  rewrite <- E, concat_snoc, sapp_assoc. reflexivity.
Qed.

Lemma args_loop_spec (s : string) (st : nat) :
  ascii_only s = true ->
  forall k cur cnt prev args res close,
  method_args_loop (chars s) s k cur cnt prev args = Ok (res, Some close) ->
  (1 <= cnt) -> (st <= prev <= cur)%nat -> substring st (prev - st) s = joinc args ->
  String.concat "," res = substring st (close - st) s /\
  String.get close s = Some ")"%char /\ (st <= close)%nat.
Proof.
  intros Ha k. induction k as [|k IH]; intros cur cnt prev args res close H Hc Hp Hj;
    [discriminate|].
  cbn [method_args_loop] in H.
  destruct (nth_error (chars s) cur) as [c|] eqn:Ec; [|discriminate].
  set (cnt' := if c =? 40 then cnt + 1 else if c =? 41 then cnt - 1 else cnt) in H.
  destruct (cnt' <? 0) eqn:E0; [discriminate|].
  destruct (1 <? cnt') eqn:E1.
  { apply (IH _ _ _ _ _ _ H); [apply Z.ltb_lt in E1; lia | lia | exact Hj]. }
  apply Z.ltb_ge in E0, E1.
  destruct ((c =? 44) || (cnt' =? 0)) eqn:Epush.
  - apply bind_ok in H as [[args' prev'] [Hst H]].
    apply bind_ok in Hst as [x [Hx Hst]]. injection Hst as <- <-.
    apply slice_ok in Hx as [-> [Hpc Hcl]].
    assert (Hsub : substring st (cur - st) s
                   = joinc args ++ substring prev (cur - prev) s).
    { replace (cur - st)%nat with ((prev - st) + (cur - prev))%nat by lia.
      rewrite substring_add, Hj. replace (st + (prev - st))%nat with prev by lia. reflexivity. }
    destruct (cnt' =? 0) eqn:Ez.
    + injection H as <- <-. apply Z.eqb_eq in Ez.
      assert (Hc41 : c = 41).
      { unfold cnt' in Ez. destruct (c =? 40) eqn:F; [lia|].
        destruct (c =? 41) eqn:G; [apply Z.eqb_eq in G; exact G | lia]. }
      subst c. split; [rewrite concat_snoc, Hsub; reflexivity|].
      split; [apply (char_at s cur ")"%char Ha Ec) | lia].
    + apply orb_true_iff in Epush as [Epush|Epush]; [|discriminate].
      apply Z.eqb_eq in Epush. subst c.
      assert (Hg : String.get cur s = Some ","%char) by exact (char_at s cur ","%char Ha Ec).
      apply (IH _ _ _ _ _ _ H).
      * apply Z.eqb_neq in Ez. lia.
      * lia.
      * rewrite joinc_snoc. replace (S cur - st)%nat with ((cur - st) + 1)%nat by lia.
        rewrite substring_add. replace (st + (cur - st))%nat with cur by lia.
        rewrite Hsub. rewrite (substring_get s cur 0 ","%char Hg), substring_zero.
        rewrite !sapp_assoc. reflexivity.
  - destruct (cnt' =? 0) eqn:Ez; [apply orb_false_iff in Epush as [_ E]; discriminate|].
    apply (IH _ _ _ _ _ _ H); [apply Z.eqb_neq in Ez; lia | lia | exact Hj].
Qed.

Lemma parse_method_args_spec (s : string) (open_idx : nat) (res : list string) (close : nat) :
  ascii_only s = true -> parse_method_args s open_idx = Ok (res, close) ->
  String.concat "," res = substring (S open_idx) (close - S open_idx) s /\
  String.get close s = Some ")"%char /\ (S open_idx <= close)%nat.
Proof.
  intros Ha. unfold parse_method_args.
  destruct (_ && _) eqn:E.
  - intros H. injection H as <- <-. apply andb_true_iff in E as [_ E].
    destruct (nth_error (chars s) (S open_idx)) as [c|] eqn:Ec; [|discriminate].
    apply Z.eqb_eq in E. subst c.
    rewrite Nat.sub_diag, substring_zero.
    split; [reflexivity|]. split; [exact (char_at s _ ")"%char Ha Ec) | lia].
  - intros H. apply bind_ok in H as [[r oc] [Hl H]].
    destruct oc as [c|]; [|discriminate]. injection H as <- <-.
    apply (args_loop_spec s (S open_idx) Ha _ _ _ _ _ _ _ Hl); [lia | lia |].
    rewrite Nat.sub_diag, substring_zero. reflexivity.
Qed.

(** X9.  For every ASCII text that [from_signature] accepts, [get_signature] of
    the resulting method gives the text back. *)
Theorem from_signature_ascii_roundtrip (s : string) (m : AbiMethod) :
  ascii_only s = true -> from_signature s = Ok m -> get_signature m = s.
Proof.
  intros Ha. unfold from_signature.
  destruct (position 40 (chars s)) as [open_idx|] eqn:Ep; [|discriminate].
  intros H. apply bind_ok in H as [nm [Hnm H]].
  destruct (String.eqb nm "") eqn:En; [discriminate|].
  apply bind_ok in H as [[arg_types close] [Hpm H]].
  apply bind_ok in H as [ret_ty [Hret H]].
  apply bind_ok in H as [rt [Hrt H]].
  apply bind_ok in H as [args0 [Hargs H]]. injection H as <-.
  assert (Hrty : ret_type_ rt = ret_ty).
  { destruct (negb _).
    - apply bind_ok in Hrt as [[t r0] [Hg Hrt]]. injection Hrt as <-. cbn [snd].
      unfold ret_get_type_object in Hg. destruct (is_void _); [discriminate|].
      cbn [ret_parsed] in Hg. apply bind_ok in Hg as [t1 [_ Hg]].
      injection Hg as _ <-. reflexivity.
    - injection Hrt as <-. reflexivity. }
  destruct (build_args_spec _ _ Hargs) as [Hmap _].
  apply position_nth in Ep.
  assert (Hopen : String.get open_idx s = Some "("%char) by exact (char_at s _ "("%char Ha Ep).
  destruct (parse_method_args_spec s open_idx arg_types close Ha Hpm) as [Hcat [Hclose Hle]].
  apply slice_ok in Hnm as [-> _]. apply slice_ok in Hret as [-> [_ _]].
  unfold get_signature. cbn [name args returns]. rewrite Hrty, Hmap, Hcat, Nat.sub_0_r.
  pose proof (get_lt _ _ _ Hclose) as Hlt.
  pose proof (get_lt _ _ _ Hopen) as Hlt0. symmetry.
  rewrite (substring_split0 s open_idx) at 1 by lia.
  replace (len s - open_idx)%nat with (S ((close - S open_idx) + S (len s - S close)))%nat
    by lia.
  rewrite (substring_get s open_idx _ "("%char Hopen), substring_add.
  replace (S open_idx + (close - S open_idx))%nat with close by lia.
  rewrite (substring_get s close _ ")"%char Hclose).
  rewrite !sapp_assoc. reflexivity.
Qed.

Lemma fmt_uint_digits (n : Z) : ascii_digits (fmt_uint n) = true.
Proof.
  unfold fmt_uint. generalize (N.to_uint (Z.to_N n)) as d.
  induction d; [reflexivity| ..]; unfold ascii_digits in *; cbn [DecimalString.NilEmpty.string_of_uint list_ascii_of_string forallb]; rewrite IHd; reflexivity.
Qed.

Lemma ascii_digits_app (a b : string) :
  ascii_digits (a ++ b) = ascii_digits a && ascii_digits b.
Proof. unfold ascii_digits. rewrite list_ascii_app. apply forallb_app. Qed.

Lemma ascii_digits_ascii (d : string) : ascii_digits d = true -> ascii_only d = true.
Proof.
  unfold ascii_digits, ascii_only. induction d as [|a d IH]; [reflexivity|].
  cbn [list_ascii_of_string forallb]. intros H. apply andb_true_iff in H as [H1 H2].
  rewrite IH by exact H2. apply andb_true_iff in H1 as [_ H1]. apply Z.leb_le in H1.
  rewrite andb_true_r. apply Z.ltb_lt. lia.
Qed.

Lemma ascii_digits_not_in (d : string) (c : ascii) :
  (byte_of c < 48 \/ 57 < byte_of c) -> ascii_digits d = true ->
  ~ In c (list_ascii_of_string d).
Proof.
  unfold ascii_digits. intros Hc H Hin. rewrite forallb_forall in H.
  specialize (H c Hin). apply andb_true_iff in H as [H1 H2].
  apply Z.leb_le in H1. apply Z.leb_le in H2. lia.
Qed.

Lemma take_while_digits (d : string) :
  ascii_digits d = true -> take_while is_digit (chars d) = (chars d, []).
Proof.
  induction d as [|a d IH]; intros H; [reflexivity|].
  unfold ascii_digits in H. cbn [list_ascii_of_string forallb] in H.
  apply andb_true_iff in H as [H1 H2]. apply andb_true_iff in H1 as [H1 H3].
  apply Z.leb_le in H1. apply Z.leb_le in H3.
  rewrite chars_cons_ascii by (apply Z.ltb_lt; lia).
  cbn [take_while]. rewrite IH by exact H2.
  replace (is_digit (byte_of a)) with true; [reflexivity|].
  unfold is_digit. cbn [nd_zeros existsb].
  replace ((48 <=? byte_of a) && (byte_of a <? 48 + 10)) with true; [reflexivity|].
  symmetry. apply andb_true_iff. split; [apply Z.leb_le | apply Z.ltb_lt]; lia.
Qed.

Lemma ends_with_last_in (q s : string) (c : ascii) :
  ends_with (q ++ String c "") s = true -> In c (list_ascii_of_string s).
Proof.
  intros H. apply ends_with_split in H. rewrite H, !list_ascii_app.
  apply in_or_app. right. apply in_or_app. right. left. reflexivity.
Qed.

Lemma ufixed_text (b p : Z) :
  string_of (mkAbiType UFIXED [] (Some b) (Some p) None)
    = Ok ("ufixed" ++ fmt_uint b ++ fmt_uint p) /\
  piece_wf (Plain ("ufixed" ++ fmt_uint b ++ fmt_uint p)) /\
  forall f, from_str_fuel (S f) ("ufixed" ++ fmt_uint b ++ fmt_uint p) = Panic.
Proof.
  set (D := fmt_uint b ++ fmt_uint p).
  assert (HD : ascii_digits D = true)
    by (unfold D; rewrite ascii_digits_app, !fmt_uint_digits; reflexivity).
  assert (HDa : ascii_only D = true) by (apply ascii_digits_ascii; exact HD).
  assert (Hnot : forall c : ascii, (byte_of c < 48 \/ 57 < byte_of c) ->
            ~ In c ["u"; "f"; "i"; "x"; "e"; "d"]%char ->
            ~ In c (list_ascii_of_string ("ufixed" ++ D))).
  { intros c Hc Hl Hin. rewrite list_ascii_app in Hin. apply in_app_or in Hin as [Hin|Hin].
    - exact (Hl Hin).
    - exact (ascii_digits_not_in D c Hc HD Hin). }
  assert (Hnb : forall q, ends_with (q ++ "]") ("ufixed" ++ D) = false).
  { intros q. destruct (ends_with _ _) eqn:E; [exfalso|reflexivity].
    apply ends_with_last_in in E.
    refine (Hnot "]"%char _ _ E); [first [left; vm_compute; reflexivity | right; vm_compute; reflexivity] | cbn; intuition discriminate]. }
  split; [reflexivity|]. split.
  - split; [|split].
    + cbn [piece_text]. rewrite ascii_only_app, HDa. reflexivity.
    + discriminate.
    + fold (no_sep_chars ("ufixed" ++ D)). unfold no_sep_chars.
      apply forallb_forall. intros c Hin.
      destruct (Ascii.eqb c ",") eqn:E1; [apply Ascii.eqb_eq in E1; subst c;
        exfalso; refine (Hnot ","%char _ _ Hin); [first [left; vm_compute; reflexivity | right; vm_compute; reflexivity] | cbn; intuition discriminate]|].
      destruct (Ascii.eqb c "(") eqn:E2; [apply Ascii.eqb_eq in E2; subst c;
        exfalso; refine (Hnot "("%char _ _ Hin); [first [left; vm_compute; reflexivity | right; vm_compute; reflexivity] | cbn; intuition discriminate]|].
      destruct (Ascii.eqb c ")") eqn:E3; [apply Ascii.eqb_eq in E3; subst c;
        exfalso; refine (Hnot ")"%char _ _ Hin); [first [left; vm_compute; reflexivity | right; vm_compute; reflexivity] | cbn; intuition discriminate]|].
      reflexivity.
  - intros f. cbn [from_str_fuel].
    replace (strip_suffix "[]" ("ufixed" ++ D)) with (@None string)
      by (unfold strip_suffix; change "[]" with ("[" ++ "]"); rewrite (Hnb "["); reflexivity).
    replace (ends_with "]" ("ufixed" ++ D)) with false by (change "]" with ("" ++ "]"); rewrite (Hnb ""); reflexivity).
    change (strip_prefix "uint" ("ufixed" ++ D)) with (@None string).
    change (String.eqb ("ufixed" ++ D) "byte") with false.
    replace (starts_with "ufixed" ("ufixed" ++ D)) with true
      by (cbn; rewrite prefix_empty; reflexivity).
    cbv iota.
    replace (ufixed_re_captures ("ufixed" ++ D)) with (@None (list string)); [reflexivity|].
    unfold ufixed_re_captures. rewrite chars_app_ascii by reflexivity.
    change (chars "ufixed") with [117; 102; 105; 120; 101; 100]. cbn [app].
    rewrite take_while_digits by exact HD.
    destruct (chars D) as [|c l]; reflexivity.
Qed.

Lemma parse_tuple_text (X : string) (strs : list string) :
  ascii_only X = true -> parse_tuple_content X = Ok strs ->
  parse ("(" ++ X ++ ")")
  = (tys <- parse_all (from_str_fuel (len ("(" ++ X ++ ")"))) strs;; make_tuple_type tys).
Proof.
  intros HX Hsplit.
  set (W := "(" ++ X ++ ")").
  assert (HW : W = ("(" ++ X) ++ String ")" "") by (unfold W; rewrite sapp_assoc; reflexivity).
  assert (HlW : len W = S (len X + 1)) by (unfold W; rewrite !len_app; reflexivity).
  unfold parse. cbn [from_str_fuel].
  replace (strip_suffix "[]" W) with (@None string).
  2:{ unfold strip_suffix. rewrite HW.
      change "[]" with ("[" ++ String "]" "").
      rewrite ends_with_other_last by discriminate. reflexivity. }
  replace (ends_with "]" W) with false.
  2:{ rewrite HW. change "]" with ("" ++ String "]" "").
      rewrite ends_with_other_last by discriminate. reflexivity. }
  change (strip_prefix "uint" W) with (@None string).
  change (String.eqb W "byte") with false.
  change (starts_with "ufixed" W) with false.
  change (String.eqb W "bool") with false.
  change (String.eqb W "address") with false.
  change (String.eqb W "string") with false.
  cbv iota.
  replace ((2 <=? len W)%nat && starts_with "(" W && ends_with ")" W) with true.
  2:{ rewrite HlW, Nat.add_1_r. rewrite HW at 2.
      rewrite ends_with_app. unfold W. cbn. rewrite prefix_empty. reflexivity. }
  rewrite slice_ascii; [| unfold W; rewrite !ascii_only_app, HX; reflexivity | lia | lia].
  cbn [bind].
  replace (substring 1 (len W - 1 - 1) W) with X.
  2:{ rewrite HlW. replace (S (len X + 1) - 1 - 1)%nat with (len X) by lia.
      unfold W. change 1%nat with (len "(" + 0)%nat. rewrite substring_app_r.
      rewrite substring_prefix. reflexivity. }
  rewrite Hsplit. reflexivity.
Qed.

Lemma parse_plain_tuple (strs : list string) :
  strs <> [] -> Forall (fun s => piece_wf (Plain s)) strs ->
  parse ("(" ++ String.concat "," strs ++ ")")
  = (tys <- parse_all (from_str_fuel (len ("(" ++ String.concat "," strs ++ ")"))) strs;;
     make_tuple_type tys).
Proof.
  intros Hsn H2.
  assert (Hpieces : Forall piece_wf (map Plain strs)) by (apply Forall_map; exact H2).
  assert (Htexts : map piece_text (map Plain strs) = strs).
  { rewrite map_map. apply map_id. }
  set (X := String.concat "," strs).
  assert (HX : ascii_only X = true).
  { unfold X. rewrite <- Htexts. apply ascii_only_texts. exact Hpieces. }
  assert (Hc : contains ",," X = false).
  { apply no_double_comma; [exact Hsn|].
    eapply Forall_impl; [|exact H2]. intros s [_ [Hx Hy]]. split; assumption. }
  assert (Hsplit : parse_tuple_content X = Ok strs).
  { pose proof (split_pieces (map Plain strs)) as Hsp. rewrite Htexts in Hsp.
    apply Hsp; [destruct strs; [congruence | discriminate] | exact Hpieces | exact Hc]. }
  exact (parse_tuple_text X strs HX Hsplit).
Qed.

Lemma strings_of_app (l1 l2 : list AbiType) (a : list string) :
  strings_of l1 = Ok a -> strings_of (l1 ++ l2) = (b <- strings_of l2;; Ok (a ++ b)%list).
Proof.
  revert a. induction l1 as [|t l1 IH]; intros a H.
  - cbn in H. inversion H; subst. cbn. destruct (strings_of l2); reflexivity.
  - cbn [strings_of app] in *. destruct (string_of t) as [x| |]; try discriminate.
    cbn [bind] in *. destruct (strings_of l1) as [xs| |]; try discriminate.
    inversion H; subst. rewrite (IH xs eq_refl). cbn [bind].
    destruct (strings_of l2); reflexivity.
Qed.

Lemma parse_all_app (p : string -> outcome AbiType) (l1 l2 : list string) (ts : list AbiType) :
  parse_all p l1 = Ok ts -> parse_all p (l1 ++ l2) = (r <- parse_all p l2;; Ok (ts ++ r)%list).
Proof.
  revert ts. induction l1 as [|s l1 IH]; intros ts H.
  - cbn in H. inversion H; subst. cbn. destruct (parse_all p l2); reflexivity.
  - cbn [parse_all app] in *. destruct (p s) as [x| |]; try discriminate.
    cbn [bind] in *. destruct (parse_all p l1) as [xs| |]; try discriminate.
    inversion H; subst. rewrite (IH xs eq_refl). cbn [bind].
    destruct (parse_all p l2); reflexivity.
Qed.

(** X10.  The public [make_tuple_type] of lib.rs panics on every list of fewer
    than 65535 types made of simple types with one ufixed type inserted
    anywhere (longer lists get the [u16] error first): the ufixed type serialises
    without its [x] separator, and the parser's [unwrap] of the ufixed regex
    captures fails on that text. *)
Theorem lib_make_tuple_type_ufixed_panics (pre post : list AbiType) (b p : Z) :
  Forall (fun t => simple_type t = true) pre ->
  Forall (fun t => simple_type t = true) post ->
  Z.of_nat (length pre + length post) < 65534 ->
  lib_make_tuple_type (pre ++ mkAbiType UFIXED [] (Some b) (Some p) None :: post) = Panic.
Proof.
  intros Hpre Hpost Hl.
  destruct (ufixed_text b p) as [Hu [Huw Hup]].
  set (U := "ufixed" ++ fmt_uint b ++ fmt_uint p) in *.
  destruct (strings_of_simple pre Hpre) as [s1 [Hs1 H1]].
  destruct (strings_of_simple post Hpost) as [s2 [Hs2 H2]].
  unfold lib_make_tuple_type. rewrite length_app. cbn [length].
  replace (length pre + S (length post) =? 0)%nat with false by (destruct (length pre); reflexivity).
  replace (65535 <=? Z.of_nat (length pre + S (length post))) with false
    by (symmetry; apply Z.leb_gt; lia).
  rewrite (strings_of_app pre _ s1 Hs1). cbn [strings_of]. rewrite Hu, Hs2. cbn [bind].
  assert (Hwf : forall strs ts, Forall2 (fun t s => piece_wf (Plain s) /\
      forall f, (len s < f)%nat -> from_str_fuel f s = Ok t) ts strs ->
      Forall (fun s => piece_wf (Plain s)) strs).
  { intros strs ts H. induction H as [|t s ts strs [Hw _] _ IH]; constructor; assumption. }
  rewrite parse_plain_tuple.
  2:{ destruct s1; discriminate. }
  2:{ apply Forall_app. split; [exact (Hwf _ _ H1)|]. constructor; [exact Huw | exact (Hwf _ _ H2)]. }
  rewrite (parse_all_app _ s1 _ pre).
  2:{ apply parse_all_fuel; [exact H1|]. intros s Hin.
      assert (Hin' : In s (s1 ++ U :: s2)%list) by (apply in_or_app; left; exact Hin).
      pose proof (len_in_concat _ _ Hin'). rewrite !len_app. cbn [len String.length] in *. lia. }
  cbn [parse_all]. rewrite len_app. cbn [len String.length]. rewrite Hup. reflexivity.
Qed.

Lemma lib_make_tuple_type_ufixed_panics_witness :
  Forall (fun t => simple_type t = true) [mkAbiType UINT [] (Some 64) None None] /\
  Forall (fun t => simple_type t = true) [mkAbiType BOOL [] None None None] /\
  Z.of_nat (length [mkAbiType UINT [] (Some 64) None None] +
            length [mkAbiType BOOL [] None None None]) < 65534 /\
  lib_make_tuple_type [mkAbiType UINT [] (Some 64) None None;
                       mkAbiType UFIXED [] (Some 128) (Some 10) None;
                       mkAbiType BOOL [] None None None] = Panic.
Proof.
  split; [repeat constructor|]. split; [repeat constructor|]. split; [reflexivity|].
  apply (lib_make_tuple_type_ufixed_panics [mkAbiType UINT [] (Some 64) None None]
           [mkAbiType BOOL [] None None None] 128 10);
    [repeat constructor | repeat constructor | reflexivity].
Defined.






Lemma wf_tuple_not_serializable (t : AbiType) :
  wf_type t = true -> contains_tuple t = true -> string_of t = not_serializable.
Proof.
  induction t as [id ch bs pr sl IH] using AbiType_ind_deep. intros Hw Hc.
  cbn [wf_type] in Hw. cbn [contains_tuple] in Hc.
  destruct (id =? UINT) eqn:E0.
  { apply Z.eqb_eq in E0. subst id. destruct bs, pr, sl, ch; discriminate. }
  destruct (id =? UFIXED) eqn:E1.
  { apply Z.eqb_eq in E1. subst id. destruct bs, pr, sl, ch; discriminate. }
  destruct ((id =? BYTE) || (id =? BOOL) || (id =? ADDRESS) || (id =? STRING)) eqn:E2.
  { destruct bs, pr, sl, ch; try discriminate.
    rewrite !orb_true_iff in E2. destruct E2 as [[[E|E]|E]|E]; apply Z.eqb_eq in E; subst id;
    discriminate. }
  destruct (id =? ARRAY_DYNAMIC) eqn:E3.
  { apply Z.eqb_eq in E3. subst id. destruct bs, pr, sl, ch as [|c [|]]; try discriminate.
    inversion IH as [|? ? IHc _]; subst. cbn in Hc. rewrite orb_false_r in Hc.
    cbn [string_of]. rewrite (IHc Hw Hc). reflexivity. }
  destruct (id =? ARRAY_STATIC) eqn:E4.
  { apply Z.eqb_eq in E4. subst id. destruct bs, pr, sl, ch as [|c [|]]; try discriminate.
    inversion IH as [|? ? IHc _]; subst. cbn in Hc. rewrite orb_false_r in Hc.
    apply andb_true_iff in Hw as [_ Hw].
    cbn [string_of]. rewrite (IHc Hw Hc). reflexivity. }
  destruct (id =? TUPLE) eqn:E5; [|discriminate].
  apply Z.eqb_eq in E5. subst id. destruct bs, pr, sl; try discriminate.
  reflexivity.
Qed.

(** X12.  No type the parser returns that has a tuple at any depth can be
    serialised: the parser records a tuple's arity in [static_length], and
    the tuple arm of [string] requires it to be [None]. *)
Theorem parse_tuple_never_serialised (s : string) (t : AbiType) :
  parse s = Ok t -> contains_tuple t = true ->
  string_of t = Err (Msg "Invalid state: not serializable abi type state: {self:?}").
Proof.
  intros Hp Hc. apply wf_tuple_not_serializable; [|exact Hc].
  exact (from_str_fuel_wf _ _ _ Hp).
Qed.

Lemma parse_tuple_never_serialised_witness :
  exists t, parse "(uint64,bool)[]" = Ok t /\ contains_tuple t = true /\
  string_of t = Err (Msg "Invalid state: not serializable abi type state: {self:?}").
Proof.
  eexists. split; [vm_compute; reflexivity|]. split; [reflexivity|].
  apply (parse_tuple_never_serialised "(uint64,bool)[]"); [vm_compute; reflexivity | reflexivity].
Defined.

Lemma simple_type_roundtrip_witness :
  simple_type (make_dynamic_array_type (make_dynamic_array_type
                 (mkAbiType UINT [] (Some 256) None None))) = true /\
  exists s, string_of (make_dynamic_array_type (make_dynamic_array_type
                 (mkAbiType UINT [] (Some 256) None None))) = Ok s /\
            parse s = Ok (make_dynamic_array_type (make_dynamic_array_type
                 (mkAbiType UINT [] (Some 256) None None))).
Proof.
  split; [reflexivity|]. apply simple_type_roundtrip. reflexivity.
Defined.

Lemma lib_make_tuple_type_simple_witness :
  [mkAbiType UINT [] (Some 64) None None; make_dynamic_array_type (mkAbiType BOOL [] None None None)] <> [] /\
  lib_make_tuple_type [mkAbiType UINT [] (Some 64) None None;
                       make_dynamic_array_type (mkAbiType BOOL [] None None None)]
  = Ok (mkAbiType TUPLE [mkAbiType UINT [] (Some 64) None None;
                         make_dynamic_array_type (mkAbiType BOOL [] None None None)] None None (Some 2)) /\
  lib_make_tuple_type [] = Err (Msg "tuple must contain at least one type").
Proof.
  split; [discriminate|].
  apply (lib_make_tuple_type_simple [mkAbiType UINT [] (Some 64) None None;
           make_dynamic_array_type (mkAbiType BOOL [] None None None)]);
    [discriminate | reflexivity | repeat constructor].
Defined.

Lemma parse_panics_on_bracket_end_witness :
  ascii_only "(uint8,bool)[2]" = true /\ ends_with "]" "(uint8,bool)[2]" = true /\
  ends_with "[]" "(uint8,bool)[2]" = false /\ parse "(uint8,bool)[2]" = Panic.
Proof.
  split; [reflexivity|]. split; [reflexivity|]. split; [reflexivity|].
  apply parse_panics_on_bracket_end; reflexivity.
Defined.

Lemma arg_get_type_object_cached_witness :
  exists t a', arg_get_type_object (mkAbiArg None "uint64[]" None None) = Ok (t, a') /\
  arg_type_ a' = arg_type_ (mkAbiArg None "uint64[]" None None) /\ arg_parsed a' = Some t /\
  (arg_parsed (mkAbiArg None "uint64[]" None None) = None ->
   parse (arg_type_ (mkAbiArg None "uint64[]" None None)) = Ok t) /\
  arg_get_type_object a' = Ok (t, a').
Proof.
  do 2 eexists. split; [vm_compute; reflexivity|].
  apply (arg_get_type_object_cached (mkAbiArg None "uint64[]" None None)). vm_compute. reflexivity.
Defined.

Lemma ret_get_type_object_cached_witness :
  exists t r', ret_get_type_object (mkAbiReturn "(uint8,string)" None None) = Ok (t, r') /\
  ret_type_ r' = ret_type_ (mkAbiReturn "(uint8,string)" None None) /\ ret_parsed r' = Some t /\
  (ret_parsed (mkAbiReturn "(uint8,string)" None None) = None ->
   parse (ret_type_ (mkAbiReturn "(uint8,string)" None None)) = Ok t) /\
  ret_get_type_object r' = Ok (t, r').
Proof.
  do 2 eexists. split; [vm_compute; reflexivity|].
  apply (ret_get_type_object_cached (mkAbiReturn "(uint8,string)" None None)). vm_compute. reflexivity.
Defined.

Lemma from_signature_caches_witness :
  exists m, from_signature "swap(uint64,(byte[],bool),AssetTransfer)uint128" = Ok m /\
  name m <> "" /\ description m = None /\ ret_description (returns m) = None /\
  (if is_void (returns m) then ret_parsed (returns m) = None
   else exists t, parse (ret_type_ (returns m)) = Ok t /\ ret_parsed (returns m) = Some t) /\
  Forall (fun a => arg_name a = None /\ arg_description a = None /\
     (if TransactionArgType_is_valid_str (arg_type_ a) || ReferenceArgType_is_valid_str (arg_type_ a)
      then arg_parsed a = None
      else exists t, parse (arg_type_ a) = Ok t /\ arg_parsed a = Some t)) (args m).
Proof.
  eexists. split; [vm_compute; reflexivity|].
  apply (from_signature_caches "swap(uint64,(byte[],bool),AssetTransfer)uint128").
  vm_compute. reflexivity.
Defined.

Lemma from_signature_ascii_roundtrip_witness :
  exists m, ascii_only "swap(uint64,(byte[],bool),AssetTransfer)uint128" = true /\
  from_signature "swap(uint64,(byte[],bool),AssetTransfer)uint128" = Ok m /\
  get_signature m = "swap(uint64,(byte[],bool),AssetTransfer)uint128".
Proof.
  eexists. split; [reflexivity|]. split; [vm_compute; reflexivity|].
  apply from_signature_ascii_roundtrip; [reflexivity | vm_compute; reflexivity].
Defined.

(** ** Spans glued to text in the splitter *)





